(** * Hebrew vocabulary game server: a shallow embedding of [server.js]

    The development follows the source file top to bottom:
    - [JSObject], [JSArray]: the few JavaScript container behaviours the
      code relies on (object literals with computed keys, property order,
      arrays that grow on assignment);
    - [Evaluator]: [normalizeHebrew] and [checkGuess];
    - [Room]: the [GameRoom] class;
    - [Server]: the socket handlers over the process-wide [rooms] map and
      [waitingPlayers] array, as a step function on an explicit state.

    A JavaScript string is a sequence of UTF-16 code units, and
    [split('')] cuts a string into its code units; strings that the code
    splits are therefore lists of code units ([N]).  The string literals
    of the source are given by the code units they have in the file
    (read as UTF-8).  Socket ids and room ids are only compared and
    concatenated, they are [string]s. *)

From Stdlib Require Import NArith Ascii String.
From stdpp Require Import gmap strings list fin_maps.

Open Scope string_scope.
Open Scope N_scope.
Open Scope nat_scope.
Open Scope list_scope.

(** ** JavaScript containers *)

Module JSObject.
Section obj.
Context {K V : Type} `{EqDecision K}.

(** A plain object as the list of its own properties in enumeration
    order.  For keys that are not canonical array indices JavaScript
    enumerates in insertion order, and assigning to an existing key
    keeps its place. *)
Fixpoint obj_set (k : K) (v : V) (o : list (K * V)) : list (K * V) :=
  match o with
  | [] => [(k, v)]
  | (k', v') :: o' =>
      if decide (k' = k) then (k', v) :: o' else (k', v') :: obj_set k v o'
  end.

(** [o[k]], [None] for [undefined]. *)
Fixpoint obj_get (k : K) (o : list (K * V)) : option V :=
  match o with
  | [] => None
  | (k', v') :: o' => if decide (k' = k) then Some v' else obj_get k o'
  end.

(** [{ k1: v1, k2: v2, ... }]: the properties are defined left to
    right, a repeated key overwrites the earlier value. *)
Definition obj_literal (l : list (K * V)) : list (K * V) :=
  foldl (λ o kv, obj_set kv.1 kv.2 o) [] l.

(** [Object.values(o)] *)
Definition obj_values (o : list (K * V)) : list V := o.*2.

(** [if (o[k]) { ...mutate o[k]... }] for values that are objects: the
    property is changed when the key is present, nothing happens
    otherwise. *)
Fixpoint obj_alter (f : V → V) (k : K) (o : list (K * V)) : list (K * V) :=
  match o with
  | [] => []
  | (k', v') :: o' =>
      if decide (k' = k) then (k', f v') :: o' else (k', v') :: obj_alter f k o'
  end.

End obj.
End JSObject.
Export JSObject.

Module JSArray.
Section arr.
Context {A : Type}.

(** An array with holes; [a[i] = v] beyond the end grows the array and
    leaves holes in between. *)
Fixpoint arr_set (i : nat) (v : A) (a : list (option A)) : list (option A) :=
  match i, a with
  | O, [] => [Some v]
  | O, _ :: a' => Some v :: a'
  | S i', [] => None :: arr_set i' v []
  | S i', x :: a' => x :: arr_set i' v a'
  end.

(** [a[i]], [None] standing for [undefined] (hole or out of range). *)
Definition arr_get (i : nat) (a : list (option A)) : option A :=
  mjoin (a !! i).

(** [l.forEach((x, i) => ...)] threading the state the callback
    mutates; [i0] is the index of the head of [l]. *)
Fixpoint forEach_from {St : Type} (f : A → nat → St → St) (i0 : nat)
    (l : list A) (s : St) : St :=
  match l with
  | [] => s
  | x :: l' => forEach_from f (S i0) l' (f x i0 s)
  end.

Definition forEach {St : Type} (f : A → nat → St → St) (l : list A)
    (s : St) : St :=
  forEach_from f 0 l s.

(** [l.findIndex((x, idx) => p(x, idx))], [None] for [-1]. *)
Fixpoint findIndex_from (p : A → nat → bool) (i0 : nat) (l : list A) :
    option nat :=
  match l with
  | [] => None
  | x :: l' => if p x i0 then Some i0 else findIndex_from p (S i0) l'
  end.

Definition findIndex (p : A → nat → bool) (l : list A) : option nat :=
  findIndex_from p 0 l.

End arr.
End JSArray.
Export JSArray.

(** ** The guess evaluator *)

Abbreviation jsstring := (list N).

(** An ASCII literal as a JavaScript string. *)
Definition js (s : string) : jsstring :=
  map N_of_ascii (list_ascii_of_string s).

Inductive LetterMark := correct | present | absent.

Global Instance LetterMark_eq_dec : EqDecision LetterMark.
Proof. solve_decision. Defined.

Module Evaluator.

(** The table of [normalizeHebrew], key by key as the source file has
    it.  The first three entries of the literal have the empty string
    as key and as value; the last two map U+795D to U+9A7B and U+6293
    to U+722A. *)
Definition finalToRegular_literal : list (jsstring * jsstring) :=
  [ ([], []); ([], []); ([], []);
    ([0x795d%N], [0x9a7b%N]); ([0x6293%N], [0x722a%N]) ].

Definition finalToRegular : list (jsstring * jsstring) :=
  obj_literal finalToRegular_literal.

(** A string is truthy when it is not empty. *)
Definition truthy (s : jsstring) : bool :=
  match s with [] => false | _ => true end.

(** [finalToRegular[char] || char]; [char] is a string of one code
    unit. *)
Definition normalizeChar (char : N) : jsstring :=
  match obj_get [char] finalToRegular with
  | Some v => if truthy v then v else [char]
  | None => [char]
  end.

(** [text.split('').map(...).join('')] *)
Definition normalizeHebrew (text : jsstring) : jsstring :=
  concat (map normalizeChar text).

(** The two arrays the passes mutate: [result] (starts empty, grows on
    assignment) and [used] (one flag per target letter). *)
Definition marks := list (option LetterMark).
Definition scratch : Type := marks * list bool.

(** First [forEach]: [if (letter === targetLetters[i])].  A match is
    only possible at an index the target has, so [used[i] = true] never
    writes past the end of [used]. *)
Definition exact_step (targetLetters : jsstring) (letter : N) (i : nat)
    (s : scratch) : scratch :=
  if decide (targetLetters !! i = Some letter)
  then (arr_set i correct s.1, <[i := true]> s.2)
  else s.

(** [!used[idx]]; a missing entry is [undefined], which negates to true. *)
Definition unused (used : list bool) (idx : nat) : bool :=
  negb (default false (used !! idx)).

(** Second [forEach]: [if (result[i] !== 'correct')].  [targetIndex] is
    an index of the target, hence of [used]. *)
Definition presence_step (targetLetters : jsstring) (letter : N) (i : nat)
    (s : scratch) : scratch :=
  if decide (arr_get i s.1 = Some correct) then s
  else
    match findIndex (λ l idx, bool_decide (l = letter) && unused s.2 idx)
            targetLetters with
    | Some targetIndex => (arr_set i present s.1, <[targetIndex := true]> s.2)
    | None => (arr_set i absent s.1, s.2)
    end.

Definition checkGuess (guess target : jsstring) : marks :=
  let normalizedGuess := normalizeHebrew guess in
  let normalizedTarget := normalizeHebrew target in
  let targetLetters := normalizedTarget in
  let guessLetters := normalizedGuess in
  let s0 : scratch := ([], replicate (length targetLetters) false) in
  let s1 := forEach (exact_step targetLetters) guessLetters s0 in
  let s2 := forEach (presence_step targetLetters) guessLetters s1 in
  s2.1.

End Evaluator.
Export Evaluator.

(** ** The vocabulary and the game room *)

(** [WORD_LIST], entry by entry as the source file has it: twenty
    string literals, eight of them empty. *)
Definition WORD_LIST : list jsstring :=
  [ [0x7816]; [0x8f6c]; [0x62fd; 0x4e13]; [0x6ce8; 0x4e13]; [];
    [0x8f6c]; [0x4f4f; 0x9a7b; 0x4e13]; []; []; [];
    []; []; [0x8f6c]; []; [];
    [0x4e13]; [0x7816; 0x7816]; [0x4e13]; [0x6ce8; 0x6293]; [0x9a7b; 0x4e13] ]%N.

Record GuessRecord := mkGuess { word : jsstring; result : marks }.

(** [score] is a JavaScript number that only ever counts up from 0 by
    one; far below 2^53 it is an exact natural number. *)
Record PlayerState := mkPlayer {
  id : string;
  guesses : list GuessRecord;
  currentGuess : jsstring;
  won : bool;
  finished : bool;
  score : N
}.

Record GameRoom := mkRoom {
  roomId : string;
  players : list (string * PlayerState);
  targetWord : jsstring;
  gameStarted : bool
}.

Module Room.

(** [WORD_LIST[Math.floor(Math.random() * WORD_LIST.length)]].  The draw
    is an input of the model: the environment hands in a natural number
    [r], read modulo the length of the list, so that every [r] denotes a
    draw and every draw is denoted by some [r]. *)
Definition getRandomWord (r : nat) : jsstring :=
  default [] (WORD_LIST !! (r mod length WORD_LIST)).

Definition freshPlayer (p : string) : PlayerState :=
  {| id := p; guesses := []; currentGuess := []; won := false;
     finished := false; score := 0 |}.

(** [new GameRoom(roomId, player1, player2)]; the [players] literal has
    two computed keys. *)
Definition constructor (roomId player1 player2 : string) (r : nat) : GameRoom :=
  {| roomId := roomId;
     players := obj_literal [ (player1, freshPlayer player1);
                              (player2, freshPlayer player2) ];
     targetWord := getRandomWord r;
     gameStarted := false |}.

Definition resetPlayer (player : PlayerState) : PlayerState :=
  {| id := id player; guesses := []; currentGuess := []; won := false;
     finished := false; score := score player |}.

Definition startNewRound (r : nat) (this : GameRoom) : GameRoom :=
  {| roomId := roomId this;
     players := prod_map (λ k : string, k) resetPlayer <$> players this;
     targetWord := getRandomWord r;
     gameStarted := true |}.

Definition setCurrentGuess (guess : jsstring) (player : PlayerState) : PlayerState :=
  {| id := id player; guesses := guesses player; currentGuess := guess;
     won := won player; finished := finished player; score := score player |}.

(** [if (this.players[playerId]) this.players[playerId].currentGuess = guess] *)
Definition updatePlayerGuess (playerId : string) (guess : jsstring)
    (this : GameRoom) : GameRoom :=
  {| roomId := roomId this;
     players := obj_alter (setCurrentGuess guess) playerId (players this);
     targetWord := targetWord this;
     gameStarted := gameStarted this |}.

(** [result.every(r => r === 'correct')]; [every] does not visit holes. *)
Definition every_correct (result : marks) : bool :=
  forallb (λ r, match r with
                | None => true
                | Some m => bool_decide (m = correct)
                end) result.

(** The body of [submitPlayerGuess] on the player's own object. *)
Definition recordGuess (guess : jsstring) (result : marks)
    (player : PlayerState) : PlayerState :=
  let guesses' := guesses player ++ [ {| word := guess; result := result |} ] in
  if every_correct result then
    {| id := id player; guesses := guesses'; currentGuess := [];
       won := true; finished := true; score := (score player + 1)%N |}
  else if (6 <=? length guesses')%nat then
    {| id := id player; guesses := guesses'; currentGuess := [];
       won := won player; finished := true; score := score player |}
  else
    {| id := id player; guesses := guesses'; currentGuess := [];
       won := won player; finished := finished player; score := score player |}.

Definition submitPlayerGuess (playerId : string) (guess : jsstring)
    (result : marks) (this : GameRoom) : GameRoom :=
  {| roomId := roomId this;
     players := obj_alter (recordGuess guess result) playerId (players this);
     targetWord := targetWord this;
     gameStarted := gameStarted this |}.

Definition isGameOver (this : GameRoom) : bool :=
  forallb finished (obj_values (players this)).

(** [null] is [None]. *)
Definition getWinner (this : GameRoom) : option string :=
  id <$> List.find won (obj_values (players this)).

End Room.

(** ** The server: socket handlers over the process-wide state *)

(** [rooms] is a [Map] from room id to a [GameRoom] object; the round
    start scheduled by [setTimeout] keeps its own reference to the room
    it was created for, also after the map has forgotten or replaced
    that room.  Room objects therefore live in a store ([objects], by
    allocation order) and the map and the timers hold addresses.

    A socket is identified by its [id]; [socketRoomId] holds the
    [roomId] property the handlers put on sockets.  Emitted messages
    are not part of the state, and the timer that emits [gameOver]
    changes none of it.  Payloads are strings.  The handlers accept
    events from any socket at any time; a real socket sends nothing
    after it disconnects, so the runs of the model include the runs of
    the server. *)
Record ServerState := mkServer {
  objects : list GameRoom;
  rooms : gmap string nat;
  waitingPlayers : list string;
  socketRoomId : gmap string string;
  pendingStarts : list nat
}.

Inductive Event :=
| FindMatch (socket : string) (r : nat)
| CancelMatch (socket : string)
| UpdateGuess (socket : string) (guess : jsstring)
| SubmitGuess (socket : string) (guess : jsstring)
| NewRound (socket : string) (r : nat)
| Disconnect (socket : string)
| RoundStartTimer (r : nat).

Module Server.

Definition init : ServerState :=
  {| objects := []; rooms := ∅; waitingPlayers := [];
     socketRoomId := ∅; pendingStarts := [] |}.

Definition setObjects (objs : list GameRoom) (σ : ServerState) : ServerState :=
  {| objects := objs; rooms := rooms σ; waitingPlayers := waitingPlayers σ;
     socketRoomId := socketRoomId σ; pendingStarts := pendingStarts σ |}.

Definition setWaiting (w : list string) (σ : ServerState) : ServerState :=
  {| objects := objects σ; rooms := rooms σ; waitingPlayers := w;
     socketRoomId := socketRoomId σ; pendingStarts := pendingStarts σ |}.

(** [rooms.get(socket.roomId)]: the address of the room object, when the
    socket has a [roomId] and the map has that key. *)
Definition getRoom (socket : string) (σ : ServerState) : option nat :=
  socketRoomId σ !! socket ≫= λ rid, rooms σ !! rid.

(** [`room_${socket.id}_${opponent.id}`] *)
Definition makeRoomId (socket opponent : string) : string :=
  "room_" +:+ socket +:+ "_" +:+ opponent.

Definition findMatch (socket : string) (r : nat) (σ : ServerState) : ServerState :=
  match waitingPlayers σ with
  | opponent :: rest =>
      (* waitingPlayers.length > 0: shift the oldest waiting socket *)
      let roomId := makeRoomId socket opponent in
      let room := Room.constructor roomId socket opponent r in
      let addr := length (objects σ) in
      {| objects := objects σ ++ [room];
         rooms := <[roomId := addr]> (rooms σ);
         waitingPlayers := rest;
         socketRoomId :=
           <[opponent := roomId]> (<[socket := roomId]> (socketRoomId σ));
         pendingStarts := pendingStarts σ ++ [addr] |}
  | [] => setWaiting (waitingPlayers σ ++ [socket]) σ
  end.

(** [waitingPlayers.indexOf(socket)], [None] for [-1]. *)
Definition indexOf (socket : string) (l : list string) : option nat :=
  findIndex (λ s _, bool_decide (s = socket)) l.

(** [if (index > -1) waitingPlayers.splice(index, 1)] *)
Definition removeWaiting (socket : string) (l : list string) : list string :=
  match indexOf socket l with
  | Some index => delete index l
  | None => l
  end.

Definition cancelMatch (socket : string) (σ : ServerState) : ServerState :=
  setWaiting (removeWaiting socket (waitingPlayers σ)) σ.

Definition updateGuess (socket : string) (guess : jsstring)
    (σ : ServerState) : ServerState :=
  match getRoom socket σ with
  | Some addr =>
      setObjects (alter (Room.updatePlayerGuess socket guess) addr (objects σ)) σ
  | None => σ
  end.

(** [room && guess && guess.length === room.targetWord.length] *)
Definition submitGuess (socket : string) (guess : jsstring)
    (σ : ServerState) : ServerState :=
  match getRoom socket σ ≫= λ addr, pair addr <$> objects σ !! addr with
  | Some (addr, room) =>
      if truthy guess && bool_decide (length guess = length (targetWord room))
      then
        let result := checkGuess guess (targetWord room) in
        setObjects
          (<[addr := Room.submitPlayerGuess socket guess result room]> (objects σ)) σ
      else σ
  | None => σ
  end.

Definition newRound (socket : string) (r : nat) (σ : ServerState) : ServerState :=
  match getRoom socket σ with
  | Some addr => setObjects (alter (Room.startNewRound r) addr (objects σ)) σ
  | None => σ
  end.

(** [if (roomId) rooms.delete(roomId)]: a string is truthy when not empty. *)
Definition disconnect (socket : string) (σ : ServerState) : ServerState :=
  let w := removeWaiting socket (waitingPlayers σ) in
  match socketRoomId σ !! socket with
  | Some roomId =>
      if bool_decide (roomId ≠ "") then
        {| objects := objects σ; rooms := delete roomId (rooms σ);
           waitingPlayers := w; socketRoomId := socketRoomId σ;
           pendingStarts := pendingStarts σ |}
      else setWaiting w σ
  | None => setWaiting w σ
  end.

(** The callback of the [setTimeout] in [findMatch].  All these timers
    have the same delay, so they fire in the order they were set: the
    event fires the oldest pending one. *)
Definition roundStartTimer (r : nat) (σ : ServerState) : ServerState :=
  match pendingStarts σ with
  | addr :: rest =>
      {| objects := alter (Room.startNewRound r) addr (objects σ);
         rooms := rooms σ; waitingPlayers := waitingPlayers σ;
         socketRoomId := socketRoomId σ; pendingStarts := rest |}
  | [] => σ
  end.

Definition step (σ : ServerState) (e : Event) : ServerState :=
  match e with
  | FindMatch socket r => findMatch socket r σ
  | CancelMatch socket => cancelMatch socket σ
  | UpdateGuess socket guess => updateGuess socket guess σ
  | SubmitGuess socket guess => submitGuess socket guess σ
  | NewRound socket r => newRound socket r σ
  | Disconnect socket => disconnect socket σ
  | RoundStartTimer r => roundStartTimer r σ
  end.

(** The state after a sequence of events, oldest first. *)
Definition run (es : list Event) : ServerState := foldl step init es.

(** The room a socket's handlers act on. *)
Definition roomOf (socket : string) (σ : ServerState) : option GameRoom :=
  getRoom socket σ ≫= λ addr, objects σ !! addr.

Definition playerOf (socket : string) (σ : ServerState) : option PlayerState :=
  roomOf socket σ ≫= λ room, obj_get socket (players room).

End Server.

(** ** Notions used in the statements *)

(** The canonical code unit of a code unit, as a function: what the
    table lookup of [normalizeChar] amounts to. *)
Definition canon (c : N) : N :=
  if decide (c = 0x795d%N) then 0x9a7b%N
  else if decide (c = 0x6293%N) then 0x722a%N
  else c.

(** The round states of a room: it is active once started and until
    both players are finished. *)
Definition RoundActive (room : GameRoom) : bool :=
  gameStarted room && negb (Room.isGameOver room).

(** A player still in play has fewer than six guesses on record. *)
Definition player_ok (p : PlayerState) : Prop :=
  finished p = false → length (guesses p) < 6.

Definition room_ok (room : GameRoom) : Prop :=
  Forall player_ok (obj_values (players room)).

(** Example runs: sockets "A" then "B" ask for a match and are paired
    in room "room_B_A" (draw 0, the first word of the list); then the
    round start fires (draw 0 again). *)
Definition paired : list Event := [FindMatch "A" 0; FindMatch "B" 0].
Definition started : list Event := paired ++ [RoundStartTimer 0].

(** The first two words of the list. *)
Definition word0 : jsstring := [0x7816%N].
Definition word1 : jsstring := [0x8f6c%N].

(** ** Notions used in the further properties *)

(** A mark other than [absent]. *)
Definition hit (m : option LetterMark) : bool :=
  match m with
  | Some correct | Some present => true
  | _ => false
  end.

(** How many positions of [letters] hold [c] and carry a mark other
    than [absent] in [res]. *)
Definition hits (c : N) (letters : list N) (res : marks) : nat :=
  length (filter (λ xm, xm.1 = c ∧ hit xm.2 = true) (zip letters res)).

(** How many positions of [letters] hold [c] and are flagged in [used]. *)
Definition consumed (c : N) (letters : list N) (used : list bool) : nat :=
  length (filter (λ xb, xb.1 = c ∧ xb.2 = true) (zip letters used)).

(** How often [c] occurs in [letters]. *)
Definition occurrences (c : N) (letters : list N) : nat :=
  length (filter (λ x, x = c) letters).

(** The bookkeeping the two passes keep in step: every mark other than
    [absent] given to a guess letter has flagged one target position
    holding that letter. *)
Definition balanced (guessLetters targetLetters : list N) (s : scratch) : Prop :=
  length s.2 = length targetLetters ∧
  ∀ c, hits c guessLetters s.1 = consumed c targetLetters s.2.

(** What every room object satisfies from its construction on. *)
Definition entry_wf (kp : string * PlayerState) : Prop :=
  id kp.2 = kp.1 ∧ (won kp.2 = true → finished kp.2 = true).

Definition room_wf (room : GameRoom) : Prop :=
  NoDup (players room).*1 ∧
  1 ≤ length (players room) ≤ 2 ∧
  Forall entry_wf (players room) ∧
  targetWord room ∈ WORD_LIST.

(** [room'] is a later state of the room object [room]: same room id,
    same players, and no score lower than before. *)
Definition room_evolves (room room' : GameRoom) : Prop :=
  roomId room' = roomId room ∧
  (players room').*1 = (players room).*1 ∧
  ∀ k p, obj_get k (players room) = Some p →
    ∃ p', obj_get k (players room') = Some p' ∧ id p' = id p ∧
          (score p ≤ score p')%N.

(** How the registry, the sockets' [roomId] properties and the pending
    timers refer to room objects. *)
Definition registry_wf (σ : ServerState) : Prop :=
  (∀ rid addr, rooms σ !! rid = Some addr →
     ∃ room, objects σ !! addr = Some room ∧ roomId room = rid) ∧
  (∀ s rid, socketRoomId σ !! s = Some rid →
     ∃ a b, rid = Server.makeRoomId a b ∧ (s = a ∨ s = b)) ∧
  Forall (λ addr, addr < length (objects σ)) (pendingStarts σ).

(** * Properties *)

(** ** The evaluator *)

Lemma finalToRegular_value :
  finalToRegular
  = [ ([], []); ([0x795d%N], [0x9a7b%N]); ([0x6293%N], [0x722a%N]) ].
Proof. reflexivity. Qed.

Lemma normalizeChar_canon c : normalizeChar c = [canon c].
Proof.
  unfold normalizeChar, canon. rewrite finalToRegular_value. cbn [obj_get].
  repeat case_decide; simplify_eq; reflexivity.
Qed.

Lemma normalizeHebrew_canon text : normalizeHebrew text = canon <$> text.
Proof.
  unfold normalizeHebrew. induction text as [|c text IH]; [done|].
  cbn. by rewrite normalizeChar_canon, IH.
Qed.

Lemma normalizeHebrew_length text : length (normalizeHebrew text) = length text.
Proof. by rewrite normalizeHebrew_canon, length_fmap. Qed.

Lemma canon_idem c : canon (canon c) = canon c.
Proof. unfold canon. repeat case_decide; simplify_eq; reflexivity. Qed.

(** Growing an array by assigning just past its end. *)
Lemma arr_set_end {A} (a : list (option A)) v :
  arr_set (length a) v a = a ++ [Some v].
Proof. induction a as [|x a IH]; [done|]. cbn. by rewrite IH. Qed.

Lemma arr_get_set_eq {A} i (v : A) a : arr_get i (arr_set i v a) = Some v.
Proof.
  unfold arr_get. revert a. induction i as [|i IH]; intros [|x a]; cbn; done.
Qed.

Lemma arr_get_set_ne {A} i j (v : A) a :
  i ≠ j → arr_get j (arr_set i v a) = arr_get j a.
Proof.
  unfold arr_get. revert j a.
  induction i as [|i IH]; intros [|j] [|x a] Hne; cbn; try done.
  - specialize (IH j [] ltac:(lia)). by destruct j.
  - apply IH. lia.
Qed.

Lemma arr_set_length_lt {A} i (v : A) a :
  i < length a → length (arr_set i v a) = length a.
Proof.
  revert a. induction i as [|i IH]; intros [|x a] Hlt; cbn in *; try lia.
  rewrite IH; lia.
Qed.

(** *** Evaluating a word against itself *)

Lemma arr_set_replicate {A} (v : A) n :
  arr_set n v (replicate n (Some v)) = replicate (S n) (Some v).
Proof. induction n as [|n IH]; [done|]. cbn. by rewrite IH. Qed.

Lemma exact_pass_self (suf pre : list N) (u : list bool) :
  (forEach_from (exact_step (pre ++ suf)) (length pre) suf
     (replicate (length pre) (Some correct), u)).1
  = replicate (length pre + length suf) (Some correct).
Proof.
  revert pre u. induction suf as [|x suf IH]; intros pre u.
  - cbn. by rewrite Nat.add_0_r.
  - cbn [forEach_from]. unfold exact_step at 2.
    rewrite decide_True by (by rewrite list_lookup_middle).
    cbn [fst snd].
    rewrite arr_set_replicate.
    replace (replicate (S (length pre)) (Some correct))
      with (replicate (length (pre ++ [x])) (Some correct) : marks)
      by (f_equal; rewrite length_app; cbn; lia).
    replace (S (length pre)) with (length (pre ++ [x]))
      by (rewrite length_app; cbn; lia).
    rewrite (cons_middle x pre suf), (assoc_L (++)).
    rewrite IH. f_equal. rewrite length_app. cbn. lia.
Qed.

Lemma presence_pass_correct t (l : list N) i (s : scratch) :
  (∀ j, i ≤ j < i + length l → arr_get j s.1 = Some correct) →
  forEach_from (presence_step t) i l s = s.
Proof.
  revert i s. induction l as [|x l IH]; intros i s Hc; [done|].
  cbn [forEach_from]. unfold presence_step at 2.
  rewrite decide_True by (apply Hc; cbn; lia).
  apply IH. intros j Hj. apply Hc. cbn. lia.
Qed.

Lemma arr_get_replicate {A} (v : A) n j :
  j < n → arr_get j (replicate n (Some v)) = Some v.
Proof. intros Hj. unfold arr_get. by rewrite lookup_replicate_2. Qed.

Lemma checkGuess_self (target : list N) :
  checkGuess target target = replicate (length target) (Some correct).
Proof.
  unfold checkGuess, forEach. cbn zeta.
  set (n := normalizeHebrew target).
  set (s1 := forEach_from (exact_step n) 0 n _).
  assert (Hs1 : s1.1 = replicate (length target) (Some correct)).
  { subst s1. rewrite <- (normalizeHebrew_length target). fold n.
    apply (exact_pass_self n []). }
  rewrite presence_pass_correct; [done|].
  intros j Hj. rewrite Hs1. apply arr_get_replicate.
  unfold n in Hj. rewrite normalizeHebrew_length in Hj. lia.
Qed.

(** *** The result is aligned with the guess and has no holes *)

Lemma arr_get_Some_lookup {A} i (a : list (option A)) v :
  arr_get i a = Some v → a !! i = Some (Some v).
Proof. unfold arr_get. destruct (a !! i) as [o|]; cbn; [by intros ->|done]. Qed.

Lemma arr_get_Some_lt {A} i (a : list (option A)) v :
  arr_get i a = Some v → i < length a.
Proof. intros H%arr_get_Some_lookup. by eapply lookup_lt_Some. Qed.

Lemma arr_set_length {A} i (v : A) a :
  length (arr_set i v a) = S i `max` length a.
Proof.
  revert a. induction i as [|i IH]; intros [|x a]; cbn [arr_set length].
  - done.
  - lia.
  - rewrite (IH []). cbn. lia.
  - rewrite IH. lia.
Qed.

Lemma exact_pass_length t (l : list N) i (s : scratch) :
  length s.1 ≤ i + length l →
  length (forEach_from (exact_step t) i l s).1 ≤ i + length l.
Proof.
  revert i s. induction l as [|x l IH]; intros i s Hlen; [done|].
  cbn [forEach_from length] in *.
  rewrite <- Nat.add_succ_comm. apply IH.
  unfold exact_step. case_decide; cbn; [rewrite arr_set_length|]; lia.
Qed.

Lemma presence_step_defined t letter i (s : scratch) :
  let s' := presence_step t letter i s in
  length s'.1 = S i `max` length s.1 ∧
  is_Some (arr_get i s'.1) ∧
  ∀ j, j ≠ i → arr_get j s'.1 = arr_get j s.1.
Proof.
  unfold presence_step. case_decide as Hc.
  - cbn. split; [|split; [rewrite Hc; eauto|done]].
    apply arr_get_Some_lt in Hc. lia.
  - destruct (findIndex _ t); cbn;
      (split; [apply arr_set_length|]); rewrite arr_get_set_eq;
      (split; [eauto|]); intros j Hj; by apply arr_get_set_ne.
Qed.

Lemma presence_pass_defined t (l : list N) i (s : scratch) :
  length s.1 ≤ i + length l →
  (∀ j, j < i → is_Some (arr_get j s.1)) →
  length (forEach_from (presence_step t) i l s).1 ≤ i + length l ∧
  ∀ j, j < i + length l →
       is_Some (arr_get j (forEach_from (presence_step t) i l s).1).
Proof.
  revert i s. induction l as [|x l IH]; intros i s Hlen Hdef.
  - cbn in *. rewrite Nat.add_0_r in *. auto.
  - cbn [forEach_from length] in *. rewrite <- Nat.add_succ_comm.
    destruct (presence_step_defined t x i s) as (Hl & Hi & Hother).
    apply IH.
    + cbn in Hl. lia.
    + intros j Hj. destruct (decide (j = i)) as [->|Hne]; [done|].
      rewrite Hother by done. apply Hdef. lia.
Qed.

(** [checkGuess] returns one mark for each code unit of the guess,
    whatever the target. *)
Lemma checkGuess_aligned (guess target : list N) :
  length (checkGuess guess target) = length guess ∧
  Forall is_Some (checkGuess guess target).
Proof.
  unfold checkGuess, forEach. cbn zeta.
  set (t := normalizeHebrew target).
  set (s1 := forEach_from (exact_step t) 0 (normalizeHebrew guess) _).
  destruct (presence_pass_defined t (normalizeHebrew guess) 0 s1)
    as [Hlen Hdef].
  { apply exact_pass_length. cbn. lia. }
  { intros j Hj. lia. }
  rewrite normalizeHebrew_length in *. cbn in Hlen, Hdef.
  set (res := (forEach_from (presence_step t) 0 (normalizeHebrew guess) s1).1) in *.
  assert (Hge : length guess ≤ length res).
  { destruct (length guess) as [|n] eqn:Hn; [lia|].
    destruct (Hdef n ltac:(lia)) as [m Hm].
    apply arr_get_Some_lt in Hm. lia. }
  split; [lia|].
  apply Forall_lookup. intros j o Hj.
  destruct (Hdef j) as [m Hm].
  { apply lookup_lt_Some in Hj. lia. }
  apply arr_get_Some_lookup in Hm. rewrite Hj in Hm. by simplify_eq.
Qed.

(** *** Evaluation only sees canonical forms *)

Lemma checkGuess_normalized (guess guess' target target' : list N) :
  normalizeHebrew guess = normalizeHebrew guess' →
  normalizeHebrew target = normalizeHebrew target' →
  checkGuess guess target = checkGuess guess' target'.
Proof. unfold checkGuess. by intros -> ->. Qed.

Lemma finalToRegular_pairs (final regular : N) :
  obj_get [final] finalToRegular = Some [regular] →
  canon final = regular ∧ canon regular = regular.
Proof.
  rewrite finalToRegular_value. cbn [obj_get]. unfold canon.
  repeat case_decide; simplify_eq; intros [= <-]; split; reflexivity.
Qed.

Lemma normalizeHebrew_insert_final (final regular : N) (text : list N) i :
  canon final = regular → canon regular = regular →
  text !! i = Some regular →
  normalizeHebrew (<[i := final]> text) = normalizeHebrew text.
Proof.
  intros Hf Hr Hi. rewrite !normalizeHebrew_canon, list_fmap_insert.
  apply list_insert_id. by rewrite list_lookup_fmap, Hi, Hf; cbn; rewrite Hr.
Qed.

(** C8: for every target word of [WORD_LIST], [checkGuess(target, target)]
    has the length of the target and every mark in it is [correct]. *)
Theorem C8_target_against_itself (target : list N) :
  target ∈ WORD_LIST →
  length (checkGuess target target) = length target ∧
  Forall (λ m, m = Some correct) (checkGuess target target).
Proof.
  intros _. rewrite checkGuess_self. split.
  - apply length_replicate.
  - apply Forall_replicate. reflexivity.
Qed.

Lemma C8_target_against_itself_witness :
  [0x6ce8; 0x6293]%N ∈ WORD_LIST ∧
  length (checkGuess [0x6ce8; 0x6293]%N [0x6ce8; 0x6293]%N) = 2 ∧
  Forall (λ m, m = Some correct) (checkGuess [0x6ce8; 0x6293]%N [0x6ce8; 0x6293]%N).
Proof.
  assert (Hin : [0x6ce8; 0x6293]%N ∈ WORD_LIST).
  { apply (list_elem_of_lookup_2 _ 18). reflexivity. }
  split; [exact Hin|]. exact (C8_target_against_itself _ Hin).
Defined.

(** C4: for a letter [regular] whose final form [final] the table of
    [normalizeHebrew] lists, writing [final] in place of [regular] at a
    position of the word, or of the target, that holds [regular] leaves
    the marks returned by [checkGuess] unchanged. *)
Theorem C4_final_form_invariance (final regular : N) (word target : list N)
    (i : nat) :
  obj_get [final] finalToRegular = Some [regular] →
  (word !! i = Some regular →
   checkGuess (<[i := final]> word) target = checkGuess word target) ∧
  (target !! i = Some regular →
   checkGuess word (<[i := final]> target) = checkGuess word target).
Proof.
  intros [Hf Hr]%finalToRegular_pairs. split; intros Hi.
  - apply checkGuess_normalized; [|done].
    by apply (normalizeHebrew_insert_final final regular).
  - apply checkGuess_normalized; [done|].
    by apply (normalizeHebrew_insert_final final regular).
Qed.

Lemma C4_final_form_invariance_witness :
  obj_get [0x6293%N] finalToRegular = Some [0x722a%N] ∧
  checkGuess (<[1 := 0x6293%N]> [0x6ce8; 0x722a]%N) [0x722a; 0x6ce8]%N
  = checkGuess [0x6ce8; 0x722a]%N [0x722a; 0x6ce8]%N ∧
  checkGuess [0x6ce8; 0x722a]%N (<[0 := 0x6293%N]> [0x722a; 0x6ce8]%N)
  = checkGuess [0x6ce8; 0x722a]%N [0x722a; 0x6ce8]%N.
Proof.
  assert (Ht : obj_get [0x6293%N] finalToRegular = Some [0x722a%N]) by reflexivity.
  split; [exact Ht|]. split.
  - exact (proj1 (C4_final_form_invariance _ _ [0x6ce8; 0x722a]%N
                    [0x722a; 0x6ce8]%N 1 Ht) eq_refl).
  - exact (proj2 (C4_final_form_invariance _ _ [0x6ce8; 0x722a]%N
                    [0x722a; 0x6ce8]%N 0 Ht) eq_refl).
Defined.

(** *** The two passes, one step at a time *)

Lemma exact_step_hit t (letter : N) i (s : scratch) :
  t !! i = Some letter →
  exact_step t letter i s = (arr_set i correct s.1, <[i := true]> s.2).
Proof. intros H. unfold exact_step. by rewrite decide_True. Qed.

Lemma exact_step_miss t (letter : N) i (s : scratch) :
  t !! i ≠ Some letter → exact_step t letter i s = s.
Proof. intros H. unfold exact_step. by rewrite decide_False. Qed.

Lemma presence_step_skip t (letter : N) i (s : scratch) :
  arr_get i s.1 = Some correct → presence_step t letter i s = s.
Proof. intros H. unfold presence_step. by rewrite decide_True. Qed.

Lemma presence_step_found t (letter : N) i (s : scratch) k :
  arr_get i s.1 ≠ Some correct →
  findIndex (λ l idx, bool_decide (l = letter) && unused s.2 idx) t = Some k →
  presence_step t letter i s = (arr_set i present s.1, <[k := true]> s.2).
Proof. intros H Hk. unfold presence_step. by rewrite decide_False, Hk. Qed.

Lemma presence_step_none t (letter : N) i (s : scratch) :
  arr_get i s.1 ≠ Some correct →
  findIndex (λ l idx, bool_decide (l = letter) && unused s.2 idx) t = None →
  presence_step t letter i s = (arr_set i absent s.1, s.2).
Proof. intros H Hk. unfold presence_step. by rewrite decide_False, Hk. Qed.

Ltac scan_target :=
  unfold findIndex, unused; cbn;
  repeat case_bool_decide; simplify_eq; done.

(** C3: [checkGuess("BBXA", "ABCB")] is [present, correct, absent,
    present], and so is the result for every guess [b b x a] against a
    target [a b c b] whose four letters are distinct after
    canonicalization. *)
Theorem C3_duplicate_letter_example :
  checkGuess (js "BBXA") (js "ABCB")
  = [Some present; Some correct; Some absent; Some present] ∧
  ∀ a b c x : N,
    NoDup (normalizeHebrew [a; b; c; x]) →
    checkGuess [b; b; x; a] [a; b; c; b]
    = [Some present; Some correct; Some absent; Some present].
Proof.
  split; [reflexivity|].
  intros a b c x Hnd.
  unfold checkGuess. rewrite !normalizeHebrew_canon in *. cbn [fmap list_fmap] in *.
  generalize dependent (canon a). generalize dependent (canon b).
  generalize dependent (canon c). generalize dependent (canon x).
  clear. intros x c b a Hnd.
  apply NoDup_cons in Hnd as [Ha Hnd]. apply NoDup_cons in Hnd as [Hb Hnd].
  apply NoDup_cons in Hnd as [Hc _].
  assert (a ≠ b ∧ a ≠ c ∧ a ≠ x ∧ b ≠ c ∧ b ≠ x ∧ c ≠ x) as (?&?&?&?&?&?)
    by set_solver.
  unfold forEach. cbn [forEach_from length replicate].
  (* exact pass: only index 1 matches *)
  rewrite (exact_step_miss _ b 0) by (cbn; congruence).
  rewrite (exact_step_hit _ b 1) by done.
  rewrite (exact_step_miss _ x 2) by (cbn; congruence).
  rewrite (exact_step_miss _ a 3) by (cbn; congruence).
  cbn [fst snd arr_set insert list_insert].
  (* presence pass *)
  rewrite (presence_step_found _ b 0 _ 3) by (done || scan_target).
  rewrite (presence_step_skip _ b 1) by done.
  rewrite (presence_step_none _ x 2) by (done || scan_target).
  rewrite (presence_step_found _ a 3 _ 0) by (done || scan_target).
  reflexivity.
Qed.

Lemma C3_duplicate_letter_example_witness :
  NoDup (normalizeHebrew [0x7816; 0x8f6c; 0x62fd; 0x4e13]%N) ∧
  checkGuess [0x8f6c; 0x8f6c; 0x4e13; 0x7816]%N [0x7816; 0x8f6c; 0x62fd; 0x8f6c]%N
  = [Some present; Some correct; Some absent; Some present].
Proof.
  assert (Hnd : NoDup (normalizeHebrew [0x7816; 0x8f6c; 0x62fd; 0x4e13]%N)).
  { apply (bool_decide_unpack _). vm_compute. exact I. }
  split; [exact Hnd|].
  exact (proj2 C3_duplicate_letter_example _ _ _ _ Hnd).
Defined.

(** ** Objects as property lists *)

Section obj_facts.
Context {K V : Type} `{EqDecision K}.
Implicit Types (o : list (K * V)) (k : K) (f : V → V).

Lemma obj_get_alter_eq f k o :
  obj_get k (obj_alter f k o) = f <$> obj_get k o.
Proof.
  induction o as [|[k' v'] o IH]; [done|]. cbn.
  case_decide; cbn; case_decide; try done.
Qed.

Lemma obj_get_alter_ne f k k' o :
  k ≠ k' → obj_get k' (obj_alter f k o) = obj_get k' o.
Proof.
  intros Hne. induction o as [|[k0 v0] o IH]; [done|]. cbn.
  case_decide; cbn; case_decide; simplify_eq; try done.
Qed.

Lemma obj_alter_keys f k o : (obj_alter f k o).*1 = o.*1.
Proof.
  induction o as [|[k' v'] o IH]; [done|]. cbn.
  case_decide; cbn; [done|]. by rewrite IH.
Qed.

Lemma obj_alter_absent f k o : obj_get k o = None → obj_alter f k o = o.
Proof.
  induction o as [|[k' v'] o IH]; [done|]. cbn.
  case_decide; [done|]. intros Hk. by rewrite IH.
Qed.

Lemma obj_alter_idemp f k o :
  (∀ v, f (f v) = f v) → obj_alter f k (obj_alter f k o) = obj_alter f k o.
Proof.
  intros Hf. induction o as [|[k' v'] o IH]; [done|]. cbn.
  case_decide; cbn; case_decide; try done.
  - by rewrite Hf.
  - by rewrite IH.
Qed.

Lemma obj_alter_Forall (P : V → Prop) f k o :
  (∀ v, P v → P (f v)) →
  Forall P (obj_values o) → Forall P (obj_values (obj_alter f k o)).
Proof.
  intros Hf. unfold obj_values.
  induction o as [|[k' v'] o IH]; [done|]. cbn.
  intros [Hv Ho]%Forall_cons. case_decide; cbn; constructor; auto.
Qed.

Lemma obj_get_Some_values k v o : obj_get k o = Some v → v ∈ obj_values o.
Proof.
  unfold obj_values. induction o as [|[k' v'] o IH]; [done|]. cbn.
  case_decide.
  - intros [= ->]. left.
  - intros Hk. right. auto.
Qed.

(** A literal of two properties has one key when the two keys coincide
    and two otherwise. *)
Lemma obj_literal_two k1 k2 (v1 v2 : V) :
  obj_literal [(k1, v1); (k2, v2)]
  = if decide (k1 = k2) then [(k1, v2)] else [(k1, v1); (k2, v2)].
Proof. unfold obj_literal. cbn. by case_decide. Qed.

End obj_facts.

(** ** The game room *)

Lemma player_ok_fresh p : player_ok (Room.freshPlayer p).
Proof. intros _. cbn. lia. Qed.

Lemma player_ok_reset p : player_ok (Room.resetPlayer p).
Proof. intros _. cbn. lia. Qed.

Lemma player_ok_setCurrentGuess guess p :
  player_ok p → player_ok (Room.setCurrentGuess guess p).
Proof. unfold player_ok. cbn. auto. Qed.

Lemma player_ok_recordGuess guess result p :
  player_ok p → player_ok (Room.recordGuess guess result p).
Proof.
  unfold player_ok, Room.recordGuess. intros Hp.
  destruct (Room.every_correct result); [done|].
  destruct (6 <=? _)%nat eqn:Hlen; [done|].
  cbn. intros Hf. apply Nat.leb_gt in Hlen. done.
Qed.

Lemma recordGuess_length guess result p :
  length (guesses (Room.recordGuess guess result p)) = S (length (guesses p)).
Proof.
  unfold Room.recordGuess.
  destruct (Room.every_correct result); [|destruct (6 <=? _)%nat];
    cbn; rewrite length_app; cbn; lia.
Qed.

Lemma room_ok_constructor rid p1 p2 r : room_ok (Room.constructor rid p1 p2 r).
Proof.
  unfold room_ok, Room.constructor. cbn [players].
  rewrite obj_literal_two. case_decide; cbn;
    repeat constructor; apply player_ok_fresh.
Qed.

Lemma room_ok_startNewRound r room : room_ok (Room.startNewRound r room).
Proof.
  unfold room_ok, Room.startNewRound, obj_values. cbn [players].
  apply Forall_fmap, Forall_fmap, Forall_true.
  intros [k p]. apply player_ok_reset.
Qed.

Lemma room_ok_updatePlayerGuess pid guess room :
  room_ok room → room_ok (Room.updatePlayerGuess pid guess room).
Proof.
  unfold room_ok, Room.updatePlayerGuess. cbn [players].
  apply obj_alter_Forall. apply player_ok_setCurrentGuess.
Qed.

Lemma room_ok_submitPlayerGuess pid guess result room :
  room_ok room → room_ok (Room.submitPlayerGuess pid guess result room).
Proof.
  unfold room_ok, Room.submitPlayerGuess. cbn [players].
  apply obj_alter_Forall. apply player_ok_recordGuess.
Qed.

(** ** The server *)

Import Server.

Lemma run_snoc es e : run (es ++ [e]) = step (run es) e.
Proof. unfold run. by rewrite foldl_app. Qed.

(** An induction principle for the states the server can reach. *)
Lemma run_ind (P : ServerState → Prop) :
  P init → (∀ σ e, P σ → P (step σ e)) → ∀ es, P (run es).
Proof.
  intros Hinit Hstep es. induction es as [|e es IH] using rev_ind; [done|].
  rewrite run_snoc. by apply Hstep.
Qed.

Lemma removeWaiting_sublist socket l : removeWaiting socket l `sublist_of` l.
Proof.
  unfold removeWaiting. destruct (indexOf socket l); [|done].
  apply sublist_delete.
Qed.

Lemma removeWaiting_length socket l :
  length (removeWaiting socket l) ≤ length l.
Proof. apply sublist_length, removeWaiting_sublist. Qed.

Lemma submitGuess_waiting socket guess σ :
  waitingPlayers (submitGuess socket guess σ) = waitingPlayers σ.
Proof.
  unfold submitGuess. destruct (_ ≫= _) as [[addr room]|]; [|done].
  by destruct (_ && _).
Qed.

Lemma step_waiting_le1 σ e :
  length (waitingPlayers σ) ≤ 1 → length (waitingPlayers (step σ e)) ≤ 1.
Proof.
  intros Hle. destruct e as [s r|s|s g|s g|s r|s|r]; cbn [step].
  - unfold findMatch. destruct (waitingPlayers σ) as [|opp rest] eqn:Hw; cbn in *; lia.
  - cbn. etrans; [apply removeWaiting_length|done].
  - unfold updateGuess. by destruct (getRoom s σ).
  - by rewrite submitGuess_waiting.
  - unfold newRound. by destruct (getRoom s σ).
  - unfold disconnect.
    destruct (socketRoomId σ !! s) as [rid|]; [case_bool_decide|]; cbn;
      (etrans; [apply removeWaiting_length|done]).
  - unfold roundStartTimer. by destruct (pendingStarts σ).
Qed.

Lemma waiting_le1 es : length (waitingPlayers (run es)) ≤ 1.
Proof.
  apply (run_ind (λ σ, length (waitingPlayers σ) ≤ 1)); [cbn; lia|].
  intros σ e. apply step_waiting_le1.
Qed.

Lemma step_rooms_ok σ e :
  Forall room_ok (objects σ) → Forall room_ok (objects (step σ e)).
Proof.
  intros Hok. destruct e as [s r|s|s g|s g|s r|s|r]; cbn [step].
  - unfold findMatch. destruct (waitingPlayers σ) as [|opp rest]; [done|].
    cbn. apply Forall_app. split; [done|].
    constructor; [apply room_ok_constructor|constructor].
  - done.
  - unfold updateGuess. destruct (getRoom s σ) as [addr|]; [|done].
    cbn. apply Forall_alter; [done|].
    intros room _. apply room_ok_updatePlayerGuess.
  - unfold submitGuess.
    destruct (_ ≫= _) as [[addr room]|] eqn:Hroom; [|done].
    destruct (_ && _); [|done]. cbn.
    apply Forall_insert; [done|]. apply room_ok_submitPlayerGuess.
    apply bind_Some in Hroom as (a & _ & Hroom).
    apply fmap_Some in Hroom as (room' & Hl & [= -> ->]).
    by eapply Forall_lookup_1.
  - unfold newRound. destruct (getRoom s σ) as [addr|]; [|done].
    cbn. apply Forall_alter; [done|].
    intros room _ _. apply room_ok_startNewRound.
  - unfold disconnect.
    by destruct (socketRoomId σ !! s) as [rid|]; [case_bool_decide|].
  - unfold roundStartTimer. destruct (pendingStarts σ) as [|addr rest]; [done|].
    cbn. apply Forall_alter; [done|].
    intros room _ _. apply room_ok_startNewRound.
Qed.

Lemma rooms_ok es : Forall room_ok (objects (run es)).
Proof.
  apply (run_ind (λ σ, Forall room_ok (objects σ))); [constructor|].
  intros σ e. apply step_rooms_ok.
Qed.

Lemma NoDup_short {A} (l : list A) : length l ≤ 1 → NoDup l.
Proof.
  destruct l as [|x [|y l]]; cbn; intros Hl; [constructor| |lia].
  apply NoDup_singleton.
Qed.

Lemma submit_lookup socket σ :
  snd <$> (getRoom socket σ ≫= λ addr, pair addr <$> objects σ !! addr)
  = roomOf socket σ.
Proof.
  unfold roomOf. destruct (getRoom socket σ) as [addr|]; [|done].
  cbn. by destruct (objects σ !! addr).
Qed.

Lemma list_alter_idemp {A} (f : A → A) i (l : list A) :
  (∀ x, f (f x) = f x) → alter f i (alter f i l) = alter f i l.
Proof.
  intros Hf. rewrite list_alter_alter_eq. apply list_alter_ext; [|done].
  intros x _. apply Hf.
Qed.

Lemma updatePlayerGuess_idemp playerId text room :
  Room.updatePlayerGuess playerId text (Room.updatePlayerGuess playerId text room)
  = Room.updatePlayerGuess playerId text room.
Proof.
  unfold Room.updatePlayerGuess. cbn. f_equal.
  apply obj_alter_idemp. by intros [].
Qed.

(** ** The claims *)

(** C10: in every state the server reaches from the empty one, under
    any sequence of events, the waiting queue holds at most one socket,
    hence no duplicates; [findMatch] pushes onto an empty queue and
    otherwise leaves the queue empty. *)
Theorem C10_queue_at_most_one (es : list Event) (socket : string) (r : nat) :
  length (waitingPlayers (run es)) ≤ 1 ∧
  NoDup (waitingPlayers (run es)) ∧
  waitingPlayers (findMatch socket r (run es))
  = match waitingPlayers (run es) with [] => [socket] | _ :: _ => [] end.
Proof.
  pose proof (waiting_le1 es) as Hle. split; [done|]. split.
  - by apply NoDup_short.
  - unfold findMatch. destruct (waitingPlayers (run es)) as [|opp [|]] eqn:Hw;
      cbn in *; try rewrite Hw; try done; lia.
Qed.

(** C9: [updatePlayerGuess] keeps the room's id, target word and
    started flag and the set of players; every other player's state is
    untouched; the named player's [currentGuess] becomes the text and
    the rest of that state is kept; calling it any number of times is
    calling it once.  The [updateGuess] handler changes nothing but the
    room object of the socket, and repeating it changes nothing more. *)
Theorem C9_updateGuess_frame (room : GameRoom) (playerId : string)
    (text : jsstring) (n : nat) (σ : ServerState) :
  let room' := Room.updatePlayerGuess playerId text room in
  let σ' := updateGuess playerId text σ in
  (roomId room' = roomId room ∧ targetWord room' = targetWord room ∧
   gameStarted room' = gameStarted room ∧
   (players room').*1 = (players room).*1) ∧
  (∀ other, other ≠ playerId →
     obj_get other (players room') = obj_get other (players room)) ∧
  (∀ p, obj_get playerId (players room) = Some p →
     ∃ p', obj_get playerId (players room') = Some p' ∧
       currentGuess p' = text ∧ id p' = id p ∧ guesses p' = guesses p ∧
       won p' = won p ∧ finished p' = finished p ∧ score p' = score p) ∧
  Nat.iter (S n) (Room.updatePlayerGuess playerId text) room = room' ∧
  (rooms σ' = rooms σ ∧ waitingPlayers σ' = waitingPlayers σ ∧
   socketRoomId σ' = socketRoomId σ ∧ pendingStarts σ' = pendingStarts σ) ∧
  roomOf playerId σ' = Room.updatePlayerGuess playerId text <$> roomOf playerId σ ∧
  (∀ addr, getRoom playerId σ ≠ Some addr → objects σ' !! addr = objects σ !! addr) ∧
  updateGuess playerId text σ' = σ'.
Proof.
  intros room' σ'. repeat apply conj; try reflexivity.
  - apply obj_alter_keys.
  - intros other Hne. by apply obj_get_alter_ne.
  - intros p Hp. eexists. split.
    + subst room'. cbn. rewrite obj_get_alter_eq, Hp. reflexivity.
    + done.
  - induction n as [|n IH]; [done|].
    rewrite Nat.iter_succ, IH. apply updatePlayerGuess_idemp.
  - subst σ'. unfold updateGuess. by destruct (getRoom playerId σ).
  - subst σ'. unfold updateGuess. by destruct (getRoom playerId σ).
  - subst σ'. unfold updateGuess. by destruct (getRoom playerId σ).
  - subst σ'. unfold updateGuess. by destruct (getRoom playerId σ).
  - subst σ'. unfold updateGuess, roomOf.
    destruct (getRoom playerId σ) as [addr|] eqn:Hg; [|by rewrite Hg].
    replace (getRoom playerId (setObjects _ σ)) with (Some addr) by done.
    cbn. apply list_lookup_alter_eq.
  - intros addr Hne. subst σ'. unfold updateGuess.
    destruct (getRoom playerId σ) as [addr'|]; [|done].
    cbn. apply list_lookup_alter_ne. congruence.
  - subst σ'. unfold updateGuess.
    destruct (getRoom playerId σ) as [addr|] eqn:Hg; [|by rewrite Hg].
    replace (getRoom playerId (setObjects _ σ)) with (Some addr) by done.
    unfold setObjects. cbn. f_equal.
    apply list_alter_idemp. apply updatePlayerGuess_idemp.
Qed.

Lemma C9_updateGuess_frame_witness :
  obj_get "A" (players (Room.constructor "room_B_A" "B" "A" 0))
  = Some (Room.freshPlayer "A") ∧
  ∃ p', obj_get "A" (players (Room.updatePlayerGuess "A" [0x7816%N]
                                (Room.constructor "room_B_A" "B" "A" 0)))
        = Some p' ∧
    currentGuess p' = [0x7816%N] ∧ id p' = "A" ∧ guesses p' = [] ∧
    won p' = false ∧ finished p' = false ∧ score p' = 0%N.
Proof.
  split; [reflexivity|].
  exact (proj1 (proj2 (proj2 (C9_updateGuess_frame
           (Room.constructor "room_B_A" "B" "A" 0) "A" [0x7816%N] 0 init)))
         (Room.freshPlayer "A") eq_refl).
Defined.

Lemma getWinner_None room :
  Room.getWinner room = None ↔
  ∀ p, p ∈ obj_values (players room) → won p = false.
Proof.
  unfold Room.getWinner. rewrite fmap_None. split.
  - intros Hnone p Hp%list_elem_of_In.
    by apply (find_none _ _ Hnone) in Hp.
  - intros Hall. destruct (find won _) as [p|] eqn:Hfind; [|done].
    apply find_some in Hfind as [Hin%list_elem_of_In Hwon].
    apply Hall in Hin. congruence.
Qed.

Lemma getWinner_Some room w :
  Room.getWinner room = Some w →
  ∃ p, p ∈ obj_values (players room) ∧ won p = true ∧ id p = w.
Proof.
  unfold Room.getWinner. intros (p & Hfind & ->)%fmap_Some.
  apply find_some in Hfind as [Hin%list_elem_of_In Hwon]. eauto.
Qed.

(** C7: [getWinner] does not look at [finished]: it returns the id of
    a player whose [won] flag is set whenever there is one, and [null]
    exactly when no player has won.  So when exactly one player has won
    it returns that player, and when both are finished and neither has
    won it returns [null]. *)
Theorem C7_getWinner (room : GameRoom) :
  (Room.getWinner room = None ↔
   ∀ p, p ∈ obj_values (players room) → won p = false) ∧
  (∀ w, Room.getWinner room = Some w →
     ∃ p, p ∈ obj_values (players room) ∧ won p = true ∧ id p = w) ∧
  (∀ p, p ∈ obj_values (players room) → won p = true →
     (∀ q, q ∈ obj_values (players room) → won q = true → q = p) →
     Room.getWinner room = Some (id p)) ∧
  (Room.isGameOver room = true →
   (∀ p, p ∈ obj_values (players room) → won p = false) →
   Room.getWinner room = None).
Proof.
  split; [apply getWinner_None|]. split; [apply getWinner_Some|]. split.
  - intros p Hp Hwon Huniq.
    destruct (Room.getWinner room) as [w|] eqn:Hw.
    + apply getWinner_Some in Hw as (q & Hq & Hqwon & <-).
      by rewrite (Huniq q Hq Hqwon).
    + pose proof (proj1 (getWinner_None room) Hw p Hp). congruence.
  - intros _ Hall. by apply getWinner_None.
Qed.

(** C1: the [submitGuess] handler leaves the whole server state as it
    is when the socket has no room in the registry, when the guess is
    the empty string, or when the length of the guess differs from the
    length of the room's target word. *)
Theorem C1_submitGuess_rejected (σ : ServerState) (socket : string)
    (guess : jsstring) :
  roomOf socket σ = None ∨ guess = [] ∨
  (∃ room, roomOf socket σ = Some room ∧
           length guess ≠ length (targetWord room)) →
  submitGuess socket guess σ = σ.
Proof.
  pose proof (submit_lookup socket σ) as Hl. unfold submitGuess.
  destruct (_ ≫= _) as [[addr room]|]; [|done]. cbn in Hl.
  intros [Hnone|[->|(room' & Hroom & Hlen)]].
  - congruence.
  - done.
  - assert (room' = room) as -> by congruence.
    by rewrite bool_decide_eq_false_2, andb_false_r.
Qed.

(** C2: in every room object of every reachable state, a player who is
    not finished has fewer than six guesses on record; each room
    operation keeps this; and [submitPlayerGuess] appends its record
    whatever the player's [finished] flag says. *)
Theorem C2_guesses_bound (es : list Event) (room : GameRoom) (p : PlayerState) :
  room ∈ objects (run es) →
  p ∈ obj_values (players room) →
  (finished p = false → length (guesses p) < 6) ∧
  (∀ r, room_ok (Room.startNewRound r room)) ∧
  (∀ playerId text, room_ok (Room.updatePlayerGuess playerId text room)) ∧
  (∀ playerId guess result,
     room_ok (Room.submitPlayerGuess playerId guess result room)) ∧
  (∀ guess result,
     length (guesses (Room.recordGuess guess result p)) = S (length (guesses p))).
Proof.
  intros Hroom Hp.
  assert (Hok : room_ok room).
  { pose proof (rooms_ok es) as Hall.
    rewrite Forall_forall in Hall. by apply Hall. }
  repeat apply conj.
  - unfold room_ok in Hok. rewrite Forall_forall in Hok. by apply Hok.
  - intros r. apply room_ok_startNewRound.
  - intros playerId text. by apply room_ok_updatePlayerGuess.
  - intros playerId guess result. by apply room_ok_submitPlayerGuess.
  - intros guess result. apply recordGuess_length.
Qed.

(** C5: the waiting queue of a reachable state never holds a socket
    twice, before or after a [findMatch]; and [findMatch] does not ask
    whether the caller already has a room: with an empty queue the
    caller is pushed onto it, and with another socket waiting the
    caller is put into a newly constructed room with that socket. *)
Theorem C5_findMatch_queue (es : list Event) (socket : string) (r : nat) :
  let σ := run es in
  let σ' := findMatch socket r σ in
  NoDup (waitingPlayers σ) ∧ NoDup (waitingPlayers σ') ∧
  (waitingPlayers σ = [] → σ' = setWaiting [socket] σ) ∧
  (∀ opponent, opponent ∈ waitingPlayers σ → opponent ≠ socket →
     waitingPlayers σ' = [] ∧
     socketRoomId σ' !! socket = Some (makeRoomId socket opponent) ∧
     socketRoomId σ' !! opponent = Some (makeRoomId socket opponent) ∧
     rooms σ' !! makeRoomId socket opponent = Some (length (objects σ)) ∧
     objects σ' !! length (objects σ)
     = Some (Room.constructor (makeRoomId socket opponent) socket opponent r)).
Proof.
  intros σ σ'.
  pose proof (waiting_le1 es) as Hle.
  pose proof (waiting_le1 (es ++ [FindMatch socket r])) as Hle'.
  rewrite run_snoc in Hle'. cbn [step] in Hle'. fold σ in Hle, Hle'. fold σ' in Hle'.
  split; [by apply NoDup_short|]. split; [by apply NoDup_short|]. split.
  - intros Hw. subst σ'. unfold findMatch. by rewrite Hw.
  - intros opponent Hin Hne. subst σ'. unfold findMatch.
    destruct (waitingPlayers σ) as [|opp [|]] eqn:Hw; cbn in Hle;
      [by apply elem_of_nil in Hin| |lia].
    apply list_elem_of_singleton in Hin as ->. cbn.
    repeat apply conj.
    + done.
    + rewrite lookup_insert_ne by done. apply lookup_insert_eq.
    + apply lookup_insert_eq.
    + apply lookup_insert_eq.
    + by apply list_lookup_middle.
Qed.

(** The constructor gives a room two players exactly when it is handed
    two different ids. *)
Lemma constructor_players rid p1 p2 r :
  (players (Room.constructor rid p1 p2 r)).*1
  = if decide (p1 = p2) then [p1] else [p1; p2].
Proof.
  unfold Room.constructor. cbn [players]. rewrite obj_literal_two.
  by case_decide.
Qed.

(** C6: a socket that calls [findMatch] twice in a row is paired with
    itself; the room constructed for the pair has a single player. *)
Theorem C6_self_pairing_single_player :
  let σ := run [FindMatch "A" 0; FindMatch "A" 0] in
  rooms σ !! "room_A_A" = Some 0 ∧
  (λ room, (players room).*1) <$> objects σ !! 0 = Some ["A"] ∧
  waitingPlayers σ = [].
Proof. vm_compute. done. Qed.

(** ** Concrete runs *)

Lemma C1_submitGuess_rejected_witness :
  (∃ room, roomOf "A" (run paired) = Some room ∧
           length (word0 ++ word1) ≠ length (targetWord room)) ∧
  submitGuess "A" (word0 ++ word1) (run paired) = run paired.
Proof.
  assert (H : ∃ room, roomOf "A" (run paired) = Some room ∧
                length (word0 ++ word1) ≠ length (targetWord room)).
  { eexists. split; [vm_compute; reflexivity|]. vm_compute. lia. }
  split; [exact H|].
  exact (C1_submitGuess_rejected _ _ _ (or_intror (or_intror H))).
Defined.

(** A guess of the right length is recorded while the room has not
    started its round, and also for a player who is already finished. *)
Lemma C1_counterexample :
  (RoundActive <$> roomOf "A" (run paired) = Some false ∧
   length ∘ guesses <$> playerOf "A" (run paired) = Some 0 ∧
   length ∘ guesses <$> playerOf "A" (submitGuess "A" word1 (run paired)) = Some 1 ∧
   submitGuess "A" word1 (run paired) ≠ run paired) ∧
  (finished <$> playerOf "A" (run (started ++ [SubmitGuess "A" word0])) = Some true ∧
   length ∘ guesses <$> playerOf "A" (run (started ++ [SubmitGuess "A" word0])) = Some 1 ∧
   length ∘ guesses <$>
     playerOf "A" (submitGuess "A" word0 (run (started ++ [SubmitGuess "A" word0])))
     = Some 2 ∧
   submitGuess "A" word0 (run (started ++ [SubmitGuess "A" word0]))
   ≠ run (started ++ [SubmitGuess "A" word0])).
Proof.
  split; repeat apply conj; try (vm_compute; reflexivity).
  - intros H. apply (f_equal (playerOf "A")) in H. vm_compute in H. discriminate.
  - intros H. apply (f_equal (playerOf "A")) in H. vm_compute in H. discriminate.
Qed.

Lemma C2_guesses_bound_witness :
  Room.constructor "room_B_A" "B" "A" 0 ∈ objects (run paired) ∧
  Room.freshPlayer "A" ∈ obj_values (players (Room.constructor "room_B_A" "B" "A" 0)) ∧
  (finished (Room.freshPlayer "A") = false →
   length (guesses (Room.freshPlayer "A")) < 6).
Proof.
  assert (Hroom : Room.constructor "room_B_A" "B" "A" 0 ∈ objects (run paired)).
  { apply (list_elem_of_lookup_2 _ 0). vm_compute. reflexivity. }
  assert (Hp : Room.freshPlayer "A"
               ∈ obj_values (players (Room.constructor "room_B_A" "B" "A" 0))).
  { apply (list_elem_of_lookup_2 _ 1). vm_compute. reflexivity. }
  split; [exact Hroom|]. split; [exact Hp|].
  exact (proj1 (C2_guesses_bound paired _ _ Hroom Hp)).
Defined.

(** Six wrong guesses finish the player; the seventh is recorded all
    the same. *)
Lemma C2_counterexample :
  finished <$> playerOf "A" (run (started ++ replicate 6 (SubmitGuess "A" word1)))
  = Some true ∧
  length ∘ guesses <$>
    playerOf "A" (run (started ++ replicate 6 (SubmitGuess "A" word1)))
  = Some 6 ∧
  length ∘ guesses <$>
    playerOf "A" (run (started ++ replicate 7 (SubmitGuess "A" word1)))
  = Some 7.
Proof. repeat apply conj; vm_compute; reflexivity. Qed.

Lemma C5_findMatch_queue_witness :
  "C" ∈ waitingPlayers (run (paired ++ [FindMatch "C" 0])) ∧
  waitingPlayers (findMatch "A" 0 (run (paired ++ [FindMatch "C" 0]))) = [] ∧
  socketRoomId (findMatch "A" 0 (run (paired ++ [FindMatch "C" 0]))) !! "A"
  = Some (makeRoomId "A" "C").
Proof.
  assert (Hin : "C" ∈ waitingPlayers (run (paired ++ [FindMatch "C" 0]))).
  { apply (list_elem_of_lookup_2 _ 0). vm_compute. reflexivity. }
  assert (Hne : "C" ≠ "A") by discriminate.
  split; [exact Hin|].
  pose proof (proj2 (proj2 (proj2 (C5_findMatch_queue
                (paired ++ [FindMatch "C" 0]) "A" 0))) "C" Hin Hne) as H.
  exact (conj (proj1 H) (proj1 (proj2 H))).
Defined.

(** Socket "A" sits in room "room_B_A" with "B"; "C" waits; when "A"
    calls [findMatch] again it is matched with "C" in a new room. *)
Lemma C5_counterexample :
  roomId <$> roomOf "A" (run (paired ++ [FindMatch "C" 0])) = Some "room_B_A" ∧
  (λ room, (players room).*1) <$> roomOf "A" (run (paired ++ [FindMatch "C" 0]))
  = Some ["B"; "A"] ∧
  (λ room, (players room).*1) <$>
    roomOf "A" (run (paired ++ [FindMatch "C" 0; FindMatch "A" 0]))
  = Some ["A"; "C"] ∧
  roomId <$> roomOf "A" (run (paired ++ [FindMatch "C" 0; FindMatch "A" 0]))
  = Some "room_A_C".
Proof. repeat apply conj; vm_compute; reflexivity. Qed.

Lemma C7_getWinner_witness :
  Room.recordGuess word0 [Some correct] (Room.freshPlayer "A")
  ∈ obj_values (players (Room.submitPlayerGuess "A" word0 [Some correct]
                           (Room.constructor "room_B_A" "B" "A" 0))) ∧
  Room.getWinner (Room.submitPlayerGuess "A" word0 [Some correct]
                    (Room.constructor "room_B_A" "B" "A" 0))
  = Some "A".
Proof.
  assert (Hp : Room.recordGuess word0 [Some correct] (Room.freshPlayer "A")
    ∈ obj_values (players (Room.submitPlayerGuess "A" word0 [Some correct]
                           (Room.constructor "room_B_A" "B" "A" 0)))).
  { apply (list_elem_of_lookup_2 _ 1). vm_compute. reflexivity. }
  split; [exact Hp|].
  refine (proj1 (proj2 (proj2 (C7_getWinner _))) _ Hp eq_refl _).
  intros q Hq Hwon. vm_compute in Hq.
  apply elem_of_cons in Hq as [->|Hq]; [discriminate Hwon|].
  apply list_elem_of_singleton in Hq. exact Hq.
Defined.

(** "A" has won and "B" has not finished: the round is not over, and
    [getWinner] names "A". *)
Lemma C7_counterexample :
  ∃ room, roomOf "A" (run (started ++ [SubmitGuess "A" word0])) = Some room ∧
    Room.isGameOver room = false ∧ Room.getWinner room = Some "A".
Proof.
  eexists. split; [vm_compute; reflexivity|]. split; vm_compute; reflexivity.
Qed.

(** * Further properties *)

(** ** The evaluator, position by position *)

Lemma findIndex_from_Some {A} (p : A → nat → bool) i0 l k :
  findIndex_from p i0 l = Some k →
  i0 ≤ k ∧ ∃ y, l !! (k - i0) = Some y ∧ p y k = true.
Proof.
  revert i0. induction l as [|x l IH]; intros i0; cbn; [done|].
  destruct (p x i0) eqn:Hp.
  - intros [= <-]. split; [lia|]. exists x. by rewrite Nat.sub_diag.
  - intros [Hle (y & Hy & Hpy)]%IH. split; [lia|]. exists y.
    replace (k - i0) with (S (k - S i0)) by lia. done.
Qed.

Lemma findIndex_from_None {A} (p : A → nat → bool) i0 l :
  findIndex_from p i0 l = None →
  ∀ j y, l !! j = Some y → p y (i0 + j) = false.
Proof.
  revert i0. induction l as [|x l IH]; intros i0; cbn; [done|].
  destruct (p x i0) eqn:Hp; [done|]. intros Hnone [|j] y; cbn.
  - intros [= <-]. by rewrite Nat.add_0_r.
  - intros Hy. rewrite <- Nat.add_succ_comm. by apply IH.
Qed.

Lemma findIndex_Some {A} (p : A → nat → bool) l k :
  findIndex p l = Some k → ∃ y, l !! k = Some y ∧ p y k = true.
Proof.
  intros [_ (y & Hy & Hp)]%findIndex_from_Some.
  rewrite Nat.sub_0_r in Hy. eauto.
Qed.

Lemma findIndex_None {A} (p : A → nat → bool) l :
  findIndex p l = None → ∀ j y, l !! j = Some y → p y j = false.
Proof. intros H j y Hy. by apply (findIndex_from_None p 0 l H j y). Qed.

(** Closes a goal whose hypotheses contain a refuted conjunction that
    the others establish. *)
Ltac clash :=
  exfalso;
  repeat match goal with
         | H : _ ∧ _ |- _ => destruct H
         | H : is_Some _ |- _ => destruct H
         end;
  first
    [ lia
    | congruence
    | match goal with
      | H : ¬ _ |- _ =>
          apply H; repeat split;
          first [ lia | eassumption | congruence
                | eexists; eassumption | eexists; congruence ]
      end ].

Lemma exact_step_get t x i (s : scratch) j :
  arr_get j (exact_step t x i s).1
  = if decide (j = i ∧ t !! i = Some x) then Some correct else arr_get j s.1.
Proof.
  unfold exact_step. case_decide as Ht; cbn [fst].
  - destruct (decide (j = i)) as [->|Hne].
    + by rewrite arr_get_set_eq, decide_True.
    + rewrite arr_get_set_ne by done. rewrite decide_False; [done|]. tauto.
  - rewrite decide_False; [done|]. tauto.
Qed.

(** After the exact pass, position [j] is marked [correct] when guess
    and target agree there, and is untouched otherwise. *)
Lemma exact_pass_get t (l : list N) i (s : scratch) j :
  arr_get j (forEach_from (exact_step t) i l s).1
  = if decide (i ≤ j ∧ is_Some (t !! j) ∧ l !! (j - i) = t !! j)
    then Some correct else arr_get j s.1.
Proof.
  revert i s. induction l as [|x l IH]; intros i s.
  - cbn. case_decide as H; [|done]. destruct H as (_ & [y Hy] & H).
    rewrite Hy in H. done.
  - cbn [forEach_from]. rewrite IH, exact_step_get.
    destruct (decide (j = i)) as [->|Hne].
    + rewrite Nat.sub_diag. cbn [lookup list_lookup].
      rewrite (decide_False (P := S i ≤ i ∧ _)) by lia.
      repeat case_decide; try done; clash.
    + destruct (decide (i ≤ j)) as [Hle|Hgt].
      * replace (j - i) with (S (j - S i)) by lia. cbn [lookup list_lookup].
        repeat case_decide; try done; clash.
      * repeat case_decide; try done; clash.
Qed.

(** The presence pass writes [present] or [absent], never [correct],
    and only at the position it is at. *)
Lemma presence_step_correct t letter i (s : scratch) j :
  arr_get j (presence_step t letter i s).1 = Some correct
  ↔ arr_get j s.1 = Some correct.
Proof.
  unfold presence_step. case_decide as Hc; [done|].
  destruct (decide (j = i)) as [->|Hne].
  - destruct (findIndex _ t); cbn; rewrite arr_get_set_eq; split; congruence.
  - destruct (findIndex _ t); cbn; by rewrite arr_get_set_ne.
Qed.

Lemma presence_pass_correct_iff t (l : list N) i (s : scratch) j :
  arr_get j (forEach_from (presence_step t) i l s).1 = Some correct
  ↔ arr_get j s.1 = Some correct.
Proof.
  revert i s. induction l as [|x l IH]; intros i s; [done|].
  cbn [forEach_from]. rewrite IH. apply presence_step_correct.
Qed.

Lemma marks_lookup_get {A} (res : list (option A)) j m :
  res !! j = Some (Some m) ↔ arr_get j res = Some m.
Proof.
  split; [|apply arr_get_Some_lookup]. unfold arr_get. by intros ->.
Qed.

Lemma checkGuess_get_correct (guess target : list N) j :
  checkGuess guess target !! j = Some (Some correct) ↔
  ∃ x, normalizeHebrew guess !! j = Some x ∧ normalizeHebrew target !! j = Some x.
Proof.
  rewrite marks_lookup_get. unfold checkGuess, forEach. cbn zeta.
  rewrite presence_pass_correct_iff, exact_pass_get, Nat.sub_0_r.
  case_decide as H.
  - split; [|done]. intros _. destruct H as (_ & [x Hx] & Hg).
    exists x. by rewrite Hg.
  - split; [done|]. intros (x & Hg & Ht). destruct H.
    split; [lia|]. rewrite Ht, Hg. eauto.
Qed.

Lemma every_correct_iff (res : list (option LetterMark)) :
  Forall is_Some res →
  Room.every_correct res = true ↔ ∀ j, j < length res → res !! j = Some (Some correct).
Proof.
  intros Hsome. unfold Room.every_correct. rewrite forallb_forall. split.
  - intros Hall j Hj. destruct (lookup_lt_is_Some_2 res j Hj) as [o Ho].
    rewrite Ho. f_equal.
    pose proof (Forall_lookup_1 _ _ _ _ Hsome Ho) as [m ->].
    assert (Hin : In (Some m) res).
    { apply list_elem_of_In. by eapply list_elem_of_lookup_2. }
    apply Hall in Hin. apply bool_decide_eq_true_1 in Hin. by subst.
  - intros Hall o [j Ho]%list_elem_of_In%list_elem_of_lookup.
    rewrite Hall in Ho by (by eapply lookup_lt_Some). by simplify_eq.
Qed.

Lemma prefix_pointwise {A} (l1 l2 : list A) :
  (∀ j x, l1 !! j = Some x → l2 !! j = Some x) ↔ l1 `prefix_of` l2.
Proof.
  split.
  - revert l2. induction l1 as [|x l1 IH]; intros l2 H; [apply prefix_nil|].
    destruct l2 as [|y l2]; [by specialize (H 0 x eq_refl)|].
    pose proof (H 0 x eq_refl) as [= ->].
    apply prefix_cons, IH. intros j z Hj. by apply (H (S j)).
  - intros Hp j x Hj. by eapply prefix_lookup_Some.
Qed.

(** X1: [checkGuess] returns exactly one mark per code unit of the
    guess, without holes, whatever the target and its length. *)
Theorem X1_checkGuess_aligned (guess target : list N) :
  length (checkGuess guess target) = length guess ∧
  Forall is_Some (checkGuess guess target).
Proof. apply checkGuess_aligned. Qed.

(** X2: position [j] of the result is [correct] exactly when the
    canonical guess and the canonical target hold the same code unit
    at [j]. *)
Theorem X2_correct_mark (guess target : list N) (j : nat) :
  checkGuess guess target !! j = Some (Some correct) ↔
  ∃ x, normalizeHebrew guess !! j = Some x ∧ normalizeHebrew target !! j = Some x.
Proof. apply checkGuess_get_correct. Qed.

Lemma all_correct_facts (guess target : list N) :
  (Room.every_correct (checkGuess guess target) = true ↔
   normalizeHebrew guess `prefix_of` normalizeHebrew target) ∧
  (length guess = length target →
   (Room.every_correct (checkGuess guess target) = true ↔
    normalizeHebrew guess = normalizeHebrew target)).
Proof.
  destruct (checkGuess_aligned guess target) as [Hlen Hsome].
  assert (Hpre : Room.every_correct (checkGuess guess target) = true ↔
    normalizeHebrew guess `prefix_of` normalizeHebrew target).
  { rewrite (every_correct_iff _ Hsome), <- prefix_pointwise, Hlen. split.
    - intros Hall j x Hj.
      assert (Hlt : j < length guess).
      { apply lookup_lt_Some in Hj. by rewrite normalizeHebrew_length in Hj. }
      apply Hall, checkGuess_get_correct in Hlt as (y & Hy & Ht). congruence.
    - intros Hall j Hj. apply checkGuess_get_correct.
      destruct (lookup_lt_is_Some_2 (normalizeHebrew guess) j) as [x Hx].
      { by rewrite normalizeHebrew_length. }
      exists x. split; [done|]. by apply Hall. }
  split; [done|]. intros Heq. rewrite Hpre. split.
  - intros Hp. apply prefix_length_eq; [done|].
    rewrite !normalizeHebrew_length. lia.
  - by intros ->.
Qed.

(** X3: every mark is [correct] (the test that makes a player win)
    exactly when the canonical guess is a prefix of the canonical
    target; for a guess as long as the target, as the handler requires,
    exactly when the two are equal after canonicalization. *)
Theorem X3_all_correct (guess target : list N) :
  (Room.every_correct (checkGuess guess target) = true ↔
   normalizeHebrew guess `prefix_of` normalizeHebrew target) ∧
  (length guess = length target →
   (Room.every_correct (checkGuess guess target) = true ↔
    normalizeHebrew guess = normalizeHebrew target)).
Proof. apply all_correct_facts. Qed.

Lemma X3_all_correct_witness :
  length [0x6ce8; 0x6293]%N = length [0x6ce8; 0x722a]%N ∧
  (Room.every_correct (checkGuess [0x6ce8; 0x6293]%N [0x6ce8; 0x722a]%N) = true ↔
   normalizeHebrew [0x6ce8; 0x6293]%N = normalizeHebrew [0x6ce8; 0x722a]%N).
Proof.
  split; [reflexivity|].
  exact (proj2 (X3_all_correct [0x6ce8; 0x6293]%N [0x6ce8; 0x722a]%N) eq_refl).
Defined.

(** ** The evaluator, letter by letter *)

Lemma hits_nil_r c letters : hits c letters [] = 0.
Proof. unfold hits. by destruct letters. Qed.

Lemma hits_cons c x letters (o : option LetterMark) res :
  hits c (x :: letters) (o :: res)
  = (if decide (x = c ∧ hit o = true) then 1 else 0) + hits c letters res.
Proof.
  unfold hits. cbn [zip zip_with]. rewrite filter_cons. cbn [fst snd].
  repeat case_decide; try done; clash.
Qed.

Lemma consumed_nil_r c letters : consumed c letters [] = 0.
Proof. unfold consumed. by destruct letters. Qed.

Lemma consumed_cons c x letters (b : bool) used :
  consumed c (x :: letters) (b :: used)
  = (if decide (x = c ∧ b = true) then 1 else 0) + consumed c letters used.
Proof.
  unfold consumed. cbn [zip zip_with]. rewrite filter_cons. cbn [fst snd].
  repeat case_decide; try done; clash.
Qed.

Lemma occurrences_cons c x letters :
  occurrences c (x :: letters)
  = (if decide (x = c) then 1 else 0) + occurrences c letters.
Proof.
  unfold occurrences. rewrite filter_cons.
  repeat case_decide; try done; clash.
Qed.

Lemma hits_le c letters res : hits c letters res ≤ occurrences c letters.
Proof.
  revert res. induction letters as [|x letters IH]; intros res.
  { unfold hits. cbn. lia. }
  destruct res as [|o res]; [rewrite hits_nil_r; lia|].
  rewrite hits_cons, occurrences_cons. specialize (IH res).
  repeat case_decide; first [lia | clash].
Qed.

Lemma consumed_le c letters used : consumed c letters used ≤ occurrences c letters.
Proof.
  revert used. induction letters as [|x letters IH]; intros used.
  { unfold consumed. cbn. lia. }
  destruct used as [|b used]; [rewrite consumed_nil_r; lia|].
  rewrite consumed_cons, occurrences_cons. specialize (IH used).
  repeat case_decide; first [lia | clash].
Qed.

(** Marking a position that had no mark other than [absent]. *)
Lemma hits_set c letters i x (v : LetterMark) (res : list (option LetterMark)) :
  letters !! i = Some x →
  hit (arr_get i res) = false →
  hits c letters (arr_set i v res)
  = hits c letters res + (if decide (x = c ∧ hit (Some v) = true) then 1 else 0).
Proof.
  revert letters res. induction i as [|i IH]; intros [|y letters] res Hx Hhit;
    try done.
  - cbn in Hx. injection Hx as ->. destruct res as [|o res]; cbn [arr_set].
    + rewrite hits_cons, !hits_nil_r. lia.
    + rewrite !hits_cons. unfold arr_get in Hhit. cbn in Hhit.
      rewrite (decide_False (P := x = c ∧ hit o = true)) by (rewrite Hhit; intros [_ ?]; done).
      lia.
  - cbn in Hx. destruct res as [|o res]; cbn [arr_set].
    + rewrite hits_cons, hits_nil_r. rewrite (IH letters []) by done.
      rewrite hits_nil_r. rewrite decide_False by (cbn; intros [_ ?]; done). lia.
    + rewrite !hits_cons. rewrite (IH letters res) by done. lia.
Qed.

(** Flagging a target position that was not flagged. *)
Lemma consumed_insert c letters k x (used : list bool) :
  letters !! k = Some x →
  used !! k = Some false →
  consumed c letters (<[k := true]> used)
  = consumed c letters used + (if decide (x = c) then 1 else 0).
Proof.
  revert letters used. induction k as [|k IH]; intros [|y letters] [|b used] Hx Hb;
    try done; cbn in Hx, Hb.
  - injection Hx as ->. injection Hb as ->.
    change (<[0:=true]> (false :: used)) with (true :: used).
    rewrite !consumed_cons.
    repeat case_decide; first [lia | clash].
  - change (<[S k:=true]> (b :: used)) with (b :: <[k:=true]> used).
    rewrite !consumed_cons. rewrite (IH letters used) by done. lia.
Qed.

Lemma consumed_full c letters (used : list bool) :
  (∀ k, letters !! k = Some c → used !! k = Some true) →
  consumed c letters used = occurrences c letters.
Proof.
  revert used. induction letters as [|x letters IH]; intros used Hall.
  - by destruct used.
  - rewrite occurrences_cons. destruct used as [|b used].
    + rewrite consumed_nil_r. rewrite <- (IH []).
      * rewrite consumed_nil_r. case_decide as Hx; [|done].
        subst. by specialize (Hall 0 eq_refl).
      * intros k Hk. by specialize (Hall (S k) Hk).
    + rewrite consumed_cons. rewrite (IH used).
      * repeat case_decide; try lia; try clash.
        subst. specialize (Hall 0 eq_refl). cbn in Hall. clash.
      * intros k Hk. apply (Hall (S k) Hk).
Qed.

Lemma hits_full_or_absent c letters (res : list (option LetterMark)) :
  (∀ j, j < length letters → is_Some (arr_get j res)) →
  hits c letters res = occurrences c letters ∨
  ∃ j, letters !! j = Some c ∧ arr_get j res = Some absent.
Proof.
  revert res. induction letters as [|x letters IH]; intros res Hdef.
  - left. by destruct res.
  - destruct res as [|o res].
    { destruct (Hdef 0) as [m Hm]; [cbn; lia|]. done. }
    destruct (IH res) as [Heq|(j & Hj & Habs)].
    + intros j Hj. apply (Hdef (S j)). cbn. lia.
    + destruct (Hdef 0) as [m Hm]; [cbn; lia|].
      unfold arr_get in Hm. cbn in Hm. subst o.
      destruct (decide (x = c ∧ m = absent)) as [[-> ->]|Hn].
      * right. by exists 0.
      * left. rewrite hits_cons, occurrences_cons, Heq.
        destruct m; cbn; repeat case_decide; try lia; clash.
    + right. by exists (S j).
Qed.

Lemma arr_get_ge {A} i (a : list (option A)) : length a ≤ i → arr_get i a = None.
Proof. intros H. unfold arr_get. by rewrite lookup_ge_None_2. Qed.

Lemma consumed_none c letters (used : list bool) :
  (∀ k, used !! k ≠ Some true) → consumed c letters used = 0.
Proof.
  revert used. induction letters as [|x letters IH]; intros used Hall.
  { by destruct used. }
  destruct used as [|b used]; [apply consumed_nil_r|].
  rewrite consumed_cons, IH.
  - case_decide as Hb; [|done]. destruct Hb as [_ ->]. by specialize (Hall 0).
  - intros k. apply (Hall (S k)).
Qed.

Lemma lookup_not_true (used : list bool) k :
  k < length used → used !! k ≠ Some true → used !! k = Some false.
Proof.
  intros Hk Hn. destruct (lookup_lt_is_Some_2 used k Hk) as [[] Hb]; done.
Qed.

Lemma exact_step_balanced g t x i (s : scratch) :
  g !! i = Some x →
  balanced g t s → length s.1 ≤ i → (∀ j, i ≤ j → s.2 !! j ≠ Some true) →
  balanced g t (exact_step t x i s).
Proof.
  intros Hg [Hlen Hbal] Hres Hused. unfold exact_step.
  case_decide as Ht; [|done]. split; cbn [fst snd].
  - by rewrite length_insert.
  - intros c. rewrite (hits_set c g i x) by (done || by rewrite arr_get_ge).
    rewrite (consumed_insert c t i x); [| done |].
    + rewrite Hbal. cbn. repeat case_decide; first [lia | clash].
    + apply lookup_not_true; [|by apply Hused].
      rewrite Hlen. by eapply lookup_lt_Some.
Qed.

Lemma exact_pass_balanced g t (l : list N) i (s : scratch) :
  (∀ k x, l !! k = Some x → g !! (i + k) = Some x) →
  balanced g t s → length s.1 ≤ i → (∀ j, i ≤ j → s.2 !! j ≠ Some true) →
  balanced g t (forEach_from (exact_step t) i l s).
Proof.
  revert i s. induction l as [|x l IH]; intros i s Hg Hbal Hres Hused; [done|].
  cbn [forEach_from]. apply IH.
  - intros k y Hk. rewrite Nat.add_succ_comm. by apply Hg.
  - apply exact_step_balanced; try done.
    rewrite <- (Nat.add_0_r i). by apply Hg.
  - unfold exact_step. case_decide; cbn; [rewrite arr_set_length|]; lia.
  - intros j Hj. unfold exact_step. case_decide; cbn; [|apply Hused; lia].
    rewrite list_lookup_insert_ne by lia. apply Hused. lia.
Qed.

(** The invariant of the presence pass: wherever [absent] was written,
    every target position holding that letter was already flagged. *)
Lemma presence_step_balanced g t x i (s : scratch) :
  g !! i = Some x →
  balanced g t s →
  arr_get i s.1 = Some correct ∨ arr_get i s.1 = None →
  (∀ j y, g !! j = Some y → arr_get j s.1 = Some absent →
          consumed y t s.2 = occurrences y t) →
  balanced g t (presence_step t x i s) ∧
  (∀ j y, g !! j = Some y →
          arr_get j (presence_step t x i s).1 = Some absent →
          consumed y t (presence_step t x i s).2 = occurrences y t).
Proof.
  intros Hg [Hlen Hbal] Hi Habs. unfold presence_step.
  case_decide as Hc; [done|]. destruct Hi as [Hi|Hi]; [done|].
  destruct (findIndex _ t) as [k|] eqn:Hfind; cbn [fst snd].
  - apply findIndex_Some in Hfind as (y & Hk & Hp).
    apply andb_true_iff in Hp as [->%bool_decide_eq_true_1 Hun].
    assert (Hfalse : s.2 !! k = Some false).
    { unfold unused in Hun.
      destruct (lookup_lt_is_Some_2 s.2 k) as [b Hb].
      { rewrite Hlen. by eapply lookup_lt_Some. }
      rewrite Hb in Hun |- *. cbn in Hun. by destruct b. }
    assert (Hnew : ∀ c, consumed c t (<[k:=true]> s.2)
                        = consumed c t s.2 + (if decide (x = c) then 1 else 0)).
    { intros c. by apply consumed_insert. }
    split; [split|]; cbn [fst snd].
    + by rewrite length_insert.
    + intros c. rewrite (hits_set c g i x) by (done || by rewrite Hi).
      rewrite Hnew, Hbal. cbn. repeat case_decide; first [lia | clash].
    + intros j y Hj Hjabs. destruct (decide (j = i)) as [->|Hne].
      { by rewrite arr_get_set_eq in Hjabs. }
      rewrite arr_get_set_ne in Hjabs by done.
      pose proof (Habs j y Hj Hjabs) as Hold.
      pose proof (consumed_le y t (<[k:=true]> s.2)) as Hle.
      rewrite Hnew in Hle |- *. case_decide; lia.
  - split; [split|]; cbn [fst snd].
    + done.
    + intros c. rewrite (hits_set c g i x) by (done || by rewrite Hi).
      rewrite Hbal. cbn. rewrite decide_False by (intros [_ ?]; done). lia.
    + intros j y Hj Hjabs. destruct (decide (j = i)) as [->|Hne].
      * assert (y = x) as -> by congruence.
        apply consumed_full. intros k Hk.
        pose proof (findIndex_None _ _ Hfind k x Hk) as Hp. cbn in Hp.
        rewrite bool_decide_eq_true_2 in Hp by done. cbn in Hp.
        unfold unused in Hp. apply negb_false_iff in Hp.
        destruct (s.2 !! k) as [[]|]; done.
      * rewrite arr_get_set_ne in Hjabs by done. by apply (Habs j y).
Qed.

Lemma presence_pass_balanced g t (l : list N) i (s : scratch) :
  (∀ k x, l !! k = Some x → g !! (i + k) = Some x) →
  balanced g t s →
  (∀ j, i ≤ j → arr_get j s.1 = Some correct ∨ arr_get j s.1 = None) →
  (∀ j y, g !! j = Some y → arr_get j s.1 = Some absent →
          consumed y t s.2 = occurrences y t) →
  balanced g t (forEach_from (presence_step t) i l s) ∧
  (∀ j y, g !! j = Some y →
          arr_get j (forEach_from (presence_step t) i l s).1 = Some absent →
          consumed y t (forEach_from (presence_step t) i l s).2 = occurrences y t).
Proof.
  revert i s. induction l as [|x l IH]; intros i s Hg Hbal Hrest Habs; [done|].
  cbn [forEach_from].
  assert (Hgi : g !! i = Some x).
  { rewrite <- (Nat.add_0_r i). by apply Hg. }
  destruct (presence_step_balanced g t x i s) as [Hbal' Habs']; try done.
  { apply Hrest. lia. }
  apply IH; try done.
  - intros k y Hk. rewrite Nat.add_succ_comm. by apply Hg.
  - intros j Hj.
    destruct (presence_step_defined t x i s) as (_ & _ & Hother).
    rewrite Hother by lia. apply Hrest. lia.
Qed.

(** X5: for every letter, the number of guess positions holding it
    that get [correct] or [present] is the smaller of its number of
    occurrences in the canonical guess and in the canonical target. *)
Theorem X5_marks_per_letter (guess target : list N) (c : N) :
  hits c (normalizeHebrew guess) (checkGuess guess target)
  = occurrences c (normalizeHebrew guess) `min` occurrences c (normalizeHebrew target).
Proof.
  set (g := normalizeHebrew guess). set (t := normalizeHebrew target).
  unfold checkGuess, forEach. cbn zeta. fold g t.
  set (s0 := ([], replicate (length t) false) : scratch).
  set (s1 := forEach_from (exact_step t) 0 g s0).
  assert (Hb1 : balanced g t s1).
  { apply exact_pass_balanced; cbn; try done.
    - split; cbn; [apply length_replicate|].
      intros c'. rewrite hits_nil_r. symmetry. apply consumed_none.
      intros k Hk. by apply lookup_replicate in Hk as [? _].
    - intros j _ Hk. by apply lookup_replicate in Hk as [? _]. }
  assert (Hget1 : ∀ j, arr_get j s1.1 = Some correct ∨ arr_get j s1.1 = None).
  { intros j. subst s1. rewrite exact_pass_get. case_decide; auto. }
  destruct (presence_pass_balanced g t g 0 s1) as [[Hlen Hbal] Habs].
  { intros k x Hk. exact Hk. }
  { exact Hb1. }
  { intros j _. apply Hget1. }
  { intros j y _ Hj. destruct (Hget1 j); congruence. }
  destruct (presence_pass_defined t g 0 s1) as [_ Hdef].
  { subst s1. apply exact_pass_length. cbn. lia. }
  { intros j Hj. lia. }
  set (s2 := forEach_from (presence_step t) 0 g s1) in *.
  pose proof (hits_le c g s2.1) as Hle1.
  pose proof (consumed_le c t s2.2) as Hle2.
  rewrite <- Hbal in Hle2.
  destruct (hits_full_or_absent c g s2.1) as [Hfull|(j & Hj & Hjabs)].
  { intros j Hj. apply Hdef. cbn. lia. }
  - lia.
  - pose proof (Habs j c Hj Hjabs) as Hall. rewrite <- Hbal in Hall. lia.
Qed.

Lemma presence_pass_below t (l : list N) i (s : scratch) j :
  j < i → arr_get j (forEach_from (presence_step t) i l s).1 = arr_get j s.1.
Proof.
  revert i s. induction l as [|x l IH]; intros i s Hj; [done|].
  cbn [forEach_from]. rewrite IH by lia.
  destruct (presence_step_defined t x i s) as (_ & _ & Hother).
  apply Hother. lia.
Qed.

(** What the presence pass leaves at position [j] is what its step at
    [j] wrote. *)
Lemma presence_pass_at t (l : list N) i (s : scratch) j x :
  i ≤ j → l !! (j - i) = Some x →
  ∃ sm : scratch,
    arr_get j (forEach_from (presence_step t) i l s).1
    = arr_get j (presence_step t x j sm).1 ∧
    arr_get j sm.1 = arr_get j s.1.
Proof.
  revert i s. induction l as [|y l IH]; intros i s Hle Hx; [done|].
  cbn [forEach_from]. destruct (decide (j = i)) as [->|Hne].
  - rewrite Nat.sub_diag in Hx. injection Hx as ->.
    exists s. split; [|done]. apply presence_pass_below. lia.
  - replace (j - i) with (S (j - S i)) in Hx by lia. cbn in Hx.
    destruct (IH (S i) (presence_step t y i s)) as (sm & Hfin & Hsm);
      [lia|done|].
    exists sm. split; [done|]. rewrite Hsm.
    destruct (presence_step_defined t y i s) as (_ & _ & Hother).
    by apply Hother.
Qed.

(** X4: a [present] mark is only given to a letter that occurs in the
    canonical target and is not matched in place; a letter that does
    not occur in the canonical target is always marked [absent]. *)
Theorem X4_present_absent (guess target : list N) (j : nat) :
  (checkGuess guess target !! j = Some (Some present) →
   ∃ x, normalizeHebrew guess !! j = Some x ∧
        x ∈ normalizeHebrew target ∧
        normalizeHebrew target !! j ≠ Some x) ∧
  (∀ x, normalizeHebrew guess !! j = Some x →
        x ∉ normalizeHebrew target →
        checkGuess guess target !! j = Some (Some absent)).
Proof.
  set (g := normalizeHebrew guess). set (t := normalizeHebrew target).
  assert (Hstep : ∀ x, g !! j = Some x →
    ∃ sm : scratch,
      arr_get j (checkGuess guess target) = arr_get j (presence_step t x j sm).1 ∧
      (arr_get j sm.1 = Some correct ↔ t !! j = Some x) ∧
      (arr_get j sm.1 = Some correct ∨ arr_get j sm.1 = None)).
  { intros x Hx. unfold checkGuess, forEach. cbn zeta. fold g t.
    set (s1 := forEach_from (exact_step t) 0 g _).
    destruct (presence_pass_at t g 0 s1 j x) as (sm & Hfin & Hsm);
      [lia|by rewrite Nat.sub_0_r|].
    exists sm. split; [done|]. rewrite Hsm. subst s1.
    rewrite exact_pass_get, Nat.sub_0_r, Hx. cbn.
    case_decide as Hd.
    - split; [|by left]. split; [|done]. intros _. by destruct Hd as (_ & _ & ->).
    - split; [|by right]. split; [done|]. intros Ht. destruct Hd.
      split; [lia|]. rewrite Ht. eauto. }
  split.
  - intros Hp.
    destruct (lookup_lt_is_Some_2 g j) as [x Hx].
    { apply lookup_lt_Some in Hp.
      destruct (checkGuess_aligned guess target) as [Hlen _].
      subst g. rewrite normalizeHebrew_length. lia. }
    exists x. split; [done|].
    destruct (Hstep x Hx) as (sm & Hfin & Hcorr & _).
    apply marks_lookup_get in Hp. rewrite Hfin in Hp.
    unfold presence_step in Hp. case_decide as Hc; [congruence|].
    split; [|by rewrite <- Hcorr].
    destruct (findIndex _ t) as [k|] eqn:Hfind; cbn in Hp;
      rewrite arr_get_set_eq in Hp; [|done].
    apply findIndex_Some in Hfind as (y & Hk & Hy).
    apply andb_true_iff in Hy as [->%bool_decide_eq_true_1 _].
    by eapply list_elem_of_lookup_2.
  - intros x Hx Hnot.
    destruct (Hstep x Hx) as (sm & Hfin & Hcorr & Hsm).
    apply marks_lookup_get. rewrite Hfin. unfold presence_step.
    rewrite decide_False.
    + destruct (findIndex _ t) as [k|] eqn:Hfind; cbn;
        rewrite arr_get_set_eq; [|done].
      apply findIndex_Some in Hfind as (y & Hk & Hy).
      apply andb_true_iff in Hy as [->%bool_decide_eq_true_1 _].
      destruct Hnot. by eapply list_elem_of_lookup_2.
    + intros Hc. apply Hcorr in Hc. destruct Hnot.
      by eapply list_elem_of_lookup_2.
Qed.

Lemma X4_present_absent_witness :
  checkGuess (js "BBXA") (js "ABCB") !! 0 = Some (Some present) ∧
  ∃ x, normalizeHebrew (js "BBXA") !! 0 = Some x ∧
       x ∈ normalizeHebrew (js "ABCB") ∧
       normalizeHebrew (js "ABCB") !! 0 ≠ Some x.
Proof.
  split; [reflexivity|].
  exact (proj1 (X4_present_absent (js "BBXA") (js "ABCB") 0) eq_refl).
Defined.

(** X6: canonicalization keeps the number of code units and is
    idempotent, and [checkGuess] gives the same marks on canonical
    forms as on the strings themselves. *)
Theorem X6_normalizeHebrew (text guess target : list N) :
  length (normalizeHebrew text) = length text ∧
  normalizeHebrew (normalizeHebrew text) = normalizeHebrew text ∧
  checkGuess (normalizeHebrew guess) (normalizeHebrew target)
  = checkGuess guess target.
Proof.
  assert (Hidem : ∀ l, normalizeHebrew (normalizeHebrew l) = normalizeHebrew l).
  { intros l. rewrite !normalizeHebrew_canon, <- list_fmap_compose.
    apply list_fmap_ext. intros _ x _. apply canon_idem. }
  split; [apply normalizeHebrew_length|]. split; [apply Hidem|].
  by apply checkGuess_normalized.
Qed.

(** ** Room objects in reachable states *)

Lemma getRandomWord_in r : Room.getRandomWord r ∈ WORD_LIST.
Proof.
  unfold Room.getRandomWord.
  destruct (WORD_LIST !! (r mod length WORD_LIST)) as [w|] eqn:Hw; cbn.
  - by eapply list_elem_of_lookup_2.
  - apply lookup_ge_None in Hw.
    pose proof (Nat.mod_upper_bound r (length WORD_LIST)) as Hlt.
    cbn in Hlt, Hw. lia.
Qed.

Lemma obj_alter_Forall_entries {K V} `{EqDecision K} (P : K * V → Prop)
    (f : V → V) k (o : list (K * V)) :
  (∀ k' v, P (k', v) → P (k', f v)) →
  Forall P o → Forall P (obj_alter f k o).
Proof.
  intros Hf. induction o as [|[k' v'] o IH]; [done|]. cbn.
  intros [Hv Ho]%Forall_cons. case_decide; constructor; auto.
Qed.

Lemma obj_alter_length {K V} `{EqDecision K} (f : V → V) k (o : list (K * V)) :
  length (obj_alter f k o) = length o.
Proof. by rewrite <- (length_fmap fst), obj_alter_keys, length_fmap. Qed.

Lemma room_wf_constructor rid p1 p2 r : room_wf (Room.constructor rid p1 p2 r).
Proof.
  unfold room_wf, Room.constructor. cbn [players targetWord].
  rewrite obj_literal_two. split_and!.
  - case_decide; cbn; [apply NoDup_singleton|].
    apply NoDup_cons. split; [|apply NoDup_singleton].
    by intros ->%list_elem_of_singleton.
  - case_decide; cbn; lia.
  - case_decide; cbn; lia.
  - case_decide; repeat constructor; done.
  - apply getRandomWord_in.
Qed.

Lemma room_wf_startNewRound r room :
  room_wf room → room_wf (Room.startNewRound r room).
Proof.
  intros (Hnd & Hlen & Hall & _).
  unfold room_wf, Room.startNewRound. cbn [players targetWord].
  assert (Hkeys : (prod_map (λ k : string, k) Room.resetPlayer <$> players room).*1
                  = (players room).*1).
  { rewrite <- list_fmap_compose. apply list_fmap_ext. by intros _ [k p] _. }
  split_and!.
  - by rewrite Hkeys.
  - rewrite length_fmap. lia.
  - rewrite length_fmap. lia.
  - apply Forall_fmap. eapply Forall_impl; [exact Hall|].
    intros [k p] [Hid _]. split; [done|]. cbn. done.
  - apply getRandomWord_in.
Qed.

Lemma room_wf_alter (f : PlayerState → PlayerState) playerId room room' :
  (∀ p, id (f p) = id p) →
  (∀ p, (won p = true → finished p = true) →
        won (f p) = true → finished (f p) = true) →
  players room' = obj_alter f playerId (players room) →
  targetWord room' = targetWord room →
  room_wf room → room_wf room'.
Proof.
  intros Hid Hwon Hp Ht (Hnd & Hlen & Hall & Hin). unfold room_wf.
  rewrite Hp, Ht, obj_alter_keys, obj_alter_length. split_and!; try done; try lia.
  apply obj_alter_Forall_entries; [|done].
  intros k p [Hk Hw]. split; cbn in *; [by rewrite Hid|by apply Hwon].
Qed.

Lemma room_wf_updatePlayerGuess playerId guess room :
  room_wf room → room_wf (Room.updatePlayerGuess playerId guess room).
Proof. by apply (room_wf_alter (Room.setCurrentGuess guess) playerId). Qed.

Lemma room_wf_submitPlayerGuess playerId guess result room :
  room_wf room → room_wf (Room.submitPlayerGuess playerId guess result room).
Proof.
  apply (room_wf_alter (Room.recordGuess guess result) playerId); try done.
  - intros p. unfold Room.recordGuess.
    by destruct (Room.every_correct result); [|destruct (6 <=? _)%nat].
  - intros p Hp. unfold Room.recordGuess.
    by destruct (Room.every_correct result); [|destruct (6 <=? _)%nat].
Qed.

Lemma step_rooms_wf σ e :
  Forall room_wf (objects σ) → Forall room_wf (objects (step σ e)).
Proof.
  intros Hok. destruct e as [s r|s|s g|s g|s r|s|r]; cbn [step].
  - unfold findMatch. destruct (waitingPlayers σ) as [|opp rest]; [done|].
    cbn. apply Forall_app. split; [done|].
    constructor; [apply room_wf_constructor|constructor].
  - done.
  - unfold updateGuess. destruct (getRoom s σ) as [addr|]; [|done].
    cbn. apply Forall_alter; [done|].
    intros room _. apply room_wf_updatePlayerGuess.
  - unfold submitGuess.
    destruct (_ ≫= _) as [[addr room]|] eqn:Hroom; [|done].
    destruct (_ && _); [|done]. cbn.
    apply Forall_insert; [done|]. apply room_wf_submitPlayerGuess.
    apply bind_Some in Hroom as (a & _ & Hroom).
    apply fmap_Some in Hroom as (room' & Hl & [= -> ->]).
    by eapply Forall_lookup_1.
  - unfold newRound. destruct (getRoom s σ) as [addr|]; [|done].
    cbn. apply Forall_alter; [done|].
    intros room _. apply room_wf_startNewRound.
  - unfold disconnect.
    by destruct (socketRoomId σ !! s) as [rid|]; [case_bool_decide|].
  - unfold roundStartTimer. destruct (pendingStarts σ) as [|addr rest]; [done|].
    cbn. apply Forall_alter; [done|].
    intros room _. apply room_wf_startNewRound.
Qed.

Lemma rooms_wf es : Forall room_wf (objects (run es)).
Proof.
  apply (run_ind (λ σ, Forall room_wf (objects σ))); [constructor|].
  intros σ e. apply step_rooms_wf.
Qed.

Lemma reachable_room_wf es room : room ∈ objects (run es) → room_wf room.
Proof.
  intros Hin. pose proof (rooms_wf es) as Hall.
  rewrite Forall_forall in Hall. by apply Hall.
Qed.

Lemma players_entry_get es room k p :
  room ∈ objects (run es) → (k, p) ∈ players room →
  id p = k ∧ obj_get k (players room) = Some p.
Proof.
  intros Hroom Hin.
  pose proof (reachable_room_wf es room Hroom) as (Hnd & _ & Hall & _).
  rewrite Forall_forall in Hall. split; [by apply (Hall (k, p))|].
  clear Hall. induction (players room) as [|[k' p'] o IH];
    [by apply elem_of_nil in Hin|].
  cbn in *. apply NoDup_cons in Hnd as [Hk' Hnd].
  apply elem_of_cons in Hin as [[= -> ->]|Hin].
  - by rewrite decide_True.
  - rewrite decide_False; [by apply IH|].
    intros ->. apply Hk'. apply list_elem_of_fmap. by exists (k, p).
Qed.

(** X7: every room object of a reachable state has one or two players
    under distinct keys, and each player's [id] field is the key it is
    stored under. *)
Theorem X7_players_shape (es : list Event) (room : GameRoom) :
  room ∈ objects (run es) →
  NoDup (players room).*1 ∧
  1 ≤ length (players room) ≤ 2 ∧
  ∀ k p, (k, p) ∈ players room → id p = k ∧ obj_get k (players room) = Some p.
Proof.
  intros Hin. pose proof (reachable_room_wf es room Hin) as (Hnd & Hlen & _ & _).
  split; [done|]. split; [done|]. intros k p. by apply (players_entry_get es).
Qed.

(** X8: in every room object of a reachable state a player who has won
    is finished; so the player [getWinner] names is finished. *)
Theorem X8_won_finished (es : list Event) (room : GameRoom) :
  room ∈ objects (run es) →
  (∀ p, p ∈ obj_values (players room) → won p = true → finished p = true) ∧
  (∀ w, Room.getWinner room = Some w →
        ∃ p, obj_get w (players room) = Some p ∧ finished p = true).
Proof.
  intros Hin. pose proof (reachable_room_wf es room Hin) as (_ & _ & Hall & _).
  assert (Hwon : ∀ p, p ∈ obj_values (players room) → won p = true →
                      finished p = true).
  { intros p [[k p'] [-> Hp]]%list_elem_of_fmap.
    rewrite Forall_forall in Hall. apply (Hall _ Hp). }
  split; [done|]. intros w (p & Hp & Hw & Hid)%getWinner_Some.
  exists p. split; [|by apply Hwon].
  apply list_elem_of_fmap in Hp as [[k p'] [-> Hp]].
  destruct (players_entry_get es room k p' Hin Hp) as [Hk Hget].
  cbn in *. congruence.
Qed.

(** X9: the target word of every room object of a reachable state is
    an entry of [WORD_LIST]. *)
Theorem X9_targetWord_in_list (es : list Event) (room : GameRoom) :
  room ∈ objects (run es) → targetWord room ∈ WORD_LIST.
Proof.
  intros Hroom. by pose proof (reachable_room_wf es room Hroom) as (_ & _ & _ & Hin).
Qed.

(** ** Room objects over time *)

Lemma room_evolves_refl room : room_evolves room room.
Proof. split; [done|]. split; [done|]. intros k p Hp. exists p. by split_and!. Qed.

Lemma room_evolves_trans r1 r2 r3 :
  room_evolves r1 r2 → room_evolves r2 r3 → room_evolves r1 r3.
Proof.
  intros (Hid1 & Hk1 & H1) (Hid2 & Hk2 & H2). split_and!; try congruence.
  intros k p Hp. destruct (H1 k p Hp) as (p' & Hp' & Hi & Hs).
  destruct (H2 k p' Hp') as (p'' & Hp'' & Hi' & Hs').
  exists p''. split_and!; [done|congruence|lia].
Qed.

Lemma room_evolves_alter (f : PlayerState → PlayerState) playerId room room' :
  (∀ p, id (f p) = id p ∧ (score p ≤ score (f p))%N) →
  roomId room' = roomId room →
  players room' = obj_alter f playerId (players room) →
  room_evolves room room'.
Proof.
  intros Hf Hid Hp. split; [done|]. rewrite Hp. split; [apply obj_alter_keys|].
  intros k p Hk. destruct (decide (playerId = k)) as [->|Hne].
  - exists (f p). rewrite obj_get_alter_eq, Hk. split; [done|]. apply Hf.
  - exists p. rewrite obj_get_alter_ne by done. by split_and!.
Qed.

Lemma obj_get_reset k (o : list (string * PlayerState)) :
  obj_get k (prod_map (λ k : string, k) Room.resetPlayer <$> o)
  = Room.resetPlayer <$> obj_get k o.
Proof.
  induction o as [|[k' p] o IH]; [done|]. cbn. by case_decide.
Qed.

Lemma room_evolves_startNewRound r room :
  room_evolves room (Room.startNewRound r room).
Proof.
  split; [done|]. cbn [Room.startNewRound players]. split.
  - rewrite <- list_fmap_compose. apply list_fmap_ext. by intros _ [k p] _.
  - intros k p Hk. exists (Room.resetPlayer p).
    rewrite obj_get_reset, Hk. by split_and!.
Qed.

Lemma room_evolves_updatePlayerGuess playerId guess room :
  room_evolves room (Room.updatePlayerGuess playerId guess room).
Proof. by apply (room_evolves_alter (Room.setCurrentGuess guess) playerId). Qed.

Lemma room_evolves_submitPlayerGuess playerId guess result room :
  room_evolves room (Room.submitPlayerGuess playerId guess result room).
Proof.
  apply (room_evolves_alter (Room.recordGuess guess result) playerId); try done.
  intros p. unfold Room.recordGuess.
  destruct (Room.every_correct result); [|destruct (6 <=? _)%nat]; cbn;
    split; try done; lia.
Qed.

Lemma alter_evolves (f : GameRoom → GameRoom) a (objs : list GameRoom) addr room :
  (∀ room, room_evolves room (f room)) →
  objs !! addr = Some room →
  ∃ room', alter f a objs !! addr = Some room' ∧ room_evolves room room'.
Proof.
  intros Hf Hroom. rewrite list_lookup_alter. case_decide as Ha.
  - subst. rewrite Hroom. eauto.
  - rewrite Hroom. eauto using room_evolves_refl.
Qed.

Lemma step_objects_evolve σ e addr room :
  objects σ !! addr = Some room →
  ∃ room', objects (step σ e) !! addr = Some room' ∧ room_evolves room room'.
Proof.
  intros Hroom.
  assert (Hsame : ∃ room', objects σ !! addr = Some room' ∧ room_evolves room room').
  { eauto using room_evolves_refl. }
  destruct e as [s r|s|s g|s g|s r|s|r]; cbn [step].
  - unfold findMatch. destruct (waitingPlayers σ) as [|opp rest]; [done|].
    cbn. exists room. split; [by apply lookup_app_l_Some|apply room_evolves_refl].
  - done.
  - unfold updateGuess. destruct (getRoom s σ) as [a|]; [|done].
    cbn. by apply alter_evolves; [apply room_evolves_updatePlayerGuess|].
  - unfold submitGuess.
    destruct (_ ≫= _) as [[a room0]|] eqn:Hroom0; [|done].
    destruct (_ && _); [|done]. cbn.
    apply bind_Some in Hroom0 as (a' & _ & Hroom0).
    apply fmap_Some in Hroom0 as (room0' & Hl & Heq). simplify_eq.
    destruct (decide (a' = addr)) as [->|Hne].
    + rewrite list_lookup_insert_eq by (by eapply lookup_lt_Some).
      eexists. split; [done|].
      assert (room0' = room) as -> by congruence.
      apply room_evolves_submitPlayerGuess.
    + by rewrite list_lookup_insert_ne.
  - unfold newRound. destruct (getRoom s σ) as [a|]; [|done].
    cbn. by apply alter_evolves; [apply room_evolves_startNewRound|].
  - unfold disconnect.
    by destruct (socketRoomId σ !! s) as [rid|]; [case_bool_decide|].
  - unfold roundStartTimer. destruct (pendingStarts σ) as [|a rest]; [done|].
    cbn. by apply alter_evolves; [apply room_evolves_startNewRound|].
Qed.

(** X10: a room object, once created, stays in place whatever events
    follow: it keeps its room id and its players, every player keeps
    its id, and no player's score ever goes down. *)
Theorem X10_rooms_persist (σ : ServerState) (es : list Event) (addr : nat)
    (room : GameRoom) :
  objects σ !! addr = Some room →
  ∃ room', objects (foldl step σ es) !! addr = Some room' ∧
    roomId room' = roomId room ∧
    (players room').*1 = (players room).*1 ∧
    ∀ k p, obj_get k (players room) = Some p →
      ∃ p', obj_get k (players room') = Some p' ∧ id p' = id p ∧
            (score p ≤ score p')%N.
Proof.
  intros Hroom.
  assert (H : ∃ room', objects (foldl step σ es) !! addr = Some room' ∧
                room_evolves room room').
  { revert σ room Hroom. induction es as [|e es IH]; intros σ room Hroom.
    - cbn. eauto using room_evolves_refl.
    - cbn [foldl].
      destruct (step_objects_evolve σ e addr room Hroom) as (r1 & Hr1 & He1).
      destruct (IH _ _ Hr1) as (r2 & Hr2 & He2).
      eauto using room_evolves_trans. }
  destruct H as (room' & Hl & He). exists room'. split; [done|]. exact He.
Qed.

(** ** The registry *)

Lemma step_objects_length σ e :
  length (objects σ) ≤ length (objects (step σ e)).
Proof.
  destruct e as [s r|s|s g|s g|s r|s|r]; cbn [step].
  - unfold findMatch. destruct (waitingPlayers σ) as [|opp rest]; [done|].
    cbn. rewrite length_app. lia.
  - done.
  - unfold updateGuess. destruct (getRoom s σ) as [a|]; [|done].
    cbn. by rewrite length_alter.
  - unfold submitGuess. destruct (_ ≫= _) as [[a room0]|]; [|done].
    destruct (_ && _); [|done]. cbn. by rewrite length_insert.
  - unfold newRound. destruct (getRoom s σ) as [a|]; [|done].
    cbn. by rewrite length_alter.
  - unfold disconnect.
    by destruct (socketRoomId σ !! s) as [rid|]; [case_bool_decide|].
  - unfold roundStartTimer. destruct (pendingStarts σ) as [|a rest]; [done|].
    cbn. by rewrite length_alter.
Qed.

Lemma step_rooms_cases σ e rid addr :
  rooms (step σ e) !! rid = Some addr →
  rooms σ !! rid = Some addr ∨
  ∃ s r opp rest, e = FindMatch s r ∧ waitingPlayers σ = opp :: rest ∧
                  rid = makeRoomId s opp ∧ addr = length (objects σ).
Proof.
  destruct e as [s r|s|s g|s g|s r|s|r]; cbn [step].
  - unfold findMatch. destruct (waitingPlayers σ) as [|opp rest] eqn:Hw; [by left|].
    cbn. intros [[<- <-]|[_ H]]%lookup_insert_Some; [|by left].
    right. by exists s, r, opp, rest.
  - by left.
  - unfold updateGuess. destruct (getRoom s σ) as [a|]; by left.
  - unfold submitGuess. destruct (_ ≫= _) as [[a room0]|]; [|by left].
    destruct (_ && _); by left.
  - unfold newRound. destruct (getRoom s σ) as [a|]; by left.
  - unfold disconnect.
    destruct (socketRoomId σ !! s) as [rid'|]; [case_bool_decide|]; cbn;
      try by left.
    intros [_ Hold]%lookup_delete_Some. by left.
  - unfold roundStartTimer. destruct (pendingStarts σ) as [|a rest]; by left.
Qed.

Lemma step_socketRoomId_cases σ e s rid :
  socketRoomId (step σ e) !! s = Some rid →
  socketRoomId σ !! s = Some rid ∨
  ∃ a b, rid = makeRoomId a b ∧ (s = a ∨ s = b).
Proof.
  destruct e as [s' r|s'|s' g|s' g|s' r|s'|r]; cbn [step].
  - unfold findMatch. destruct (waitingPlayers σ) as [|opp rest]; [by left|].
    cbn. intros [[<- <-]|[_ Hs]]%lookup_insert_Some; [right; eauto|].
    apply lookup_insert_Some in Hs as [[<- <-]|[_ Hs]]; [right; eauto|by left].
  - by left.
  - unfold updateGuess. destruct (getRoom s' σ) as [a|]; by left.
  - unfold submitGuess. destruct (_ ≫= _) as [[a room0]|]; [|by left].
    destruct (_ && _); by left.
  - unfold newRound. destruct (getRoom s' σ) as [a|]; by left.
  - unfold disconnect.
    destruct (socketRoomId σ !! s') as [rid'|]; [case_bool_decide|]; by left.
  - unfold roundStartTimer. destruct (pendingStarts σ) as [|a rest]; by left.
Qed.

Lemma step_pendingStarts σ e :
  Forall (λ addr, addr < length (objects σ)) (pendingStarts σ) →
  Forall (λ addr, addr < length (objects (step σ e))) (pendingStarts (step σ e)).
Proof.
  intros Hp.
  assert (Hmono : Forall (λ addr, addr < length (objects (step σ e)))
                    (pendingStarts σ)).
  { eapply Forall_impl; [exact Hp|]. intros a Ha. cbn in Ha.
    pose proof (step_objects_length σ e). lia. }
  destruct e as [s r|s|s g|s g|s r|s|r]; cbn [step] in *.
  - unfold findMatch in *. destruct (waitingPlayers σ) as [|opp rest]; [done|].
    cbn in *. apply Forall_app. split; [done|].
    constructor; [|done]. rewrite length_app. cbn. lia.
  - done.
  - unfold updateGuess in *. by destruct (getRoom s σ) as [a|].
  - unfold submitGuess in *. destruct (_ ≫= _) as [[a room0]|]; [|done].
    by destruct (_ && _).
  - unfold newRound in *. by destruct (getRoom s σ) as [a|].
  - unfold disconnect in *.
    by destruct (socketRoomId σ !! s) as [rid|]; [case_bool_decide|].
  - unfold roundStartTimer in *.
    destruct (pendingStarts σ) as [|a rest] eqn:Hps; [by rewrite Hps|].
    cbn in *. by apply Forall_cons in Hmono as [_ ?].
Qed.

Lemma step_registry_wf σ e : registry_wf σ → registry_wf (step σ e).
Proof.
  intros (Hrooms & Hsock & Hpend). split_and!.
  - intros rid addr
      [Hold|(s & r & opp & rest & -> & Hw & -> & ->)]%step_rooms_cases.
    + destruct (Hrooms rid addr Hold) as (room & Hroom & Hid).
      destruct (step_objects_evolve σ e addr room Hroom) as (room' & Hr' & He).
      exists room'. split; [done|]. destruct He as [-> _]. done.
    + cbn [step]. unfold findMatch. rewrite Hw. cbn.
      eexists. split; [by apply list_lookup_middle|done].
  - intros s rid [Hold|Hnew]%step_socketRoomId_cases; [by apply Hsock|done].
  - by apply step_pendingStarts.
Qed.

Lemma registry_wf_run es : registry_wf (run es).
Proof.
  apply (run_ind registry_wf).
  - split_and!; [intros ?? H; cbn in H; by rewrite lookup_empty in H..|constructor].
  - intros σ e. apply step_registry_wf.
Qed.

Lemma makeRoomId_nonempty a b : makeRoomId a b ≠ "".
Proof. done. Qed.

(** X11: in every reachable state the registry maps a room id to a
    room object that carries this id, so a lookup that finds the id
    finds a room; and the [roomId] a socket carries is never empty and
    is the id of a room made for that socket. *)
Theorem X11_registry (es : list Event) :
  (∀ rid addr, rooms (run es) !! rid = Some addr →
     ∃ room, objects (run es) !! addr = Some room ∧ roomId room = rid) ∧
  (∀ s, is_Some (getRoom s (run es)) → is_Some (roomOf s (run es))) ∧
  (∀ s rid, socketRoomId (run es) !! s = Some rid →
     rid ≠ "" ∧ ∃ a b, rid = makeRoomId a b ∧ (s = a ∨ s = b)).
Proof.
  destruct (registry_wf_run es) as (Hrooms & Hsock & _). split_and!.
  - done.
  - intros s [addr Hget]. unfold roomOf. rewrite Hget. cbn.
    unfold getRoom in Hget. apply bind_Some in Hget as (rid & _ & Hrid).
    destruct (Hrooms rid addr Hrid) as (room & -> & _). eauto.
  - intros s rid Hs. destruct (Hsock s rid Hs) as (a & b & -> & Hab).
    split; [apply makeRoomId_nonempty|eauto].
Qed.

(** ** The waiting queue *)

Lemma findIndex_from_shift {A} (q : A → bool) i0 (l : list A) :
  findIndex_from (λ y _, q y) i0 l
  = (λ k, i0 + k) <$> findIndex_from (λ y _, q y) 0 l.
Proof.
  revert i0. induction l as [|x l IH]; intros i0; [done|]. cbn.
  destruct (q x); cbn; [by rewrite Nat.add_0_r|].
  rewrite (IH (S i0)), (IH 1).
  destruct (findIndex_from _ 0 l); cbn; [f_equal; lia|done].
Qed.

Lemma removeWaiting_nil s : removeWaiting s [] = [].
Proof. done. Qed.

Lemma removeWaiting_cons s x l :
  removeWaiting s (x :: l) = if decide (x = s) then l else x :: removeWaiting s l.
Proof.
  unfold removeWaiting, indexOf, findIndex. cbn [findIndex_from].
  case_bool_decide as Hx.
  - by rewrite decide_True.
  - rewrite decide_False by done.
    rewrite (findIndex_from_shift (λ y, bool_decide (y = s)) 1).
    by destruct (findIndex_from _ 0 l).
Qed.

Lemma removeWaiting_absent s l : s ∉ l → removeWaiting s l = l.
Proof.
  induction l as [|x l IH]; [done|]. rewrite removeWaiting_cons.
  intros [Hx Hl]%not_elem_of_cons. rewrite decide_False by done. by rewrite IH.
Qed.

Lemma removeWaiting_length_in s l :
  s ∈ l → S (length (removeWaiting s l)) = length l.
Proof.
  induction l as [|x l IH]; [by intros ?%elem_of_nil|].
  rewrite removeWaiting_cons. case_decide as Hx; [done|].
  intros [?|Hl]%elem_of_cons; [done|]. cbn. by rewrite IH.
Qed.

Lemma removeWaiting_other s t l :
  t ≠ s → (t ∈ removeWaiting s l ↔ t ∈ l).
Proof.
  intros Hne. induction l as [|x l IH]; [done|].
  rewrite removeWaiting_cons. case_decide as Hx.
  - subst. rewrite elem_of_cons. split; [auto|]. by intros [?|?].
  - by rewrite !elem_of_cons, IH.
Qed.

Lemma removeWaiting_NoDup s l : NoDup l → s ∉ removeWaiting s l.
Proof.
  induction l as [|x l IH]; [intros _; apply not_elem_of_nil|].
  rewrite removeWaiting_cons. intros [Hx Hl]%NoDup_cons.
  case_decide as Hs; [by subst|].
  apply not_elem_of_cons. split; [done|]. by apply IH.
Qed.

Lemma setWaiting_same σ : setWaiting (waitingPlayers σ) σ = σ.
Proof. by destruct σ. Qed.

(** X12: [cancelMatch] touches nothing but the queue; it changes
    nothing at all for a socket that is not waiting, and otherwise
    removes exactly one entry of the queue, leaving every other socket
    where it was; on a queue without duplicates the socket is gone
    afterwards. *)
Theorem X12_cancelMatch (σ : ServerState) (s : string) :
  (objects (cancelMatch s σ) = objects σ ∧ rooms (cancelMatch s σ) = rooms σ ∧
   socketRoomId (cancelMatch s σ) = socketRoomId σ ∧
   pendingStarts (cancelMatch s σ) = pendingStarts σ) ∧
  (s ∉ waitingPlayers σ → cancelMatch s σ = σ) ∧
  (s ∈ waitingPlayers σ →
   S (length (waitingPlayers (cancelMatch s σ))) = length (waitingPlayers σ)) ∧
  (∀ t, t ≠ s →
     (t ∈ waitingPlayers (cancelMatch s σ) ↔ t ∈ waitingPlayers σ)) ∧
  (NoDup (waitingPlayers σ) → s ∉ waitingPlayers (cancelMatch s σ)).
Proof.
  split_and!; try done.
  - intros Hs. unfold cancelMatch. rewrite removeWaiting_absent by done.
    apply setWaiting_same.
  - apply removeWaiting_length_in.
  - intros t Hne. by apply removeWaiting_other.
  - apply removeWaiting_NoDup.
Qed.

Lemma X12_cancelMatch_witness :
  "A" ∈ waitingPlayers (run [FindMatch "A" 0]) ∧
  S (length (waitingPlayers (cancelMatch "A" (run [FindMatch "A" 0]))))
  = length (waitingPlayers (run [FindMatch "A" 0])).
Proof.
  assert (Hin : "A" ∈ waitingPlayers (run [FindMatch "A" 0])).
  { apply (list_elem_of_lookup_2 _ 0). reflexivity. }
  split; [exact Hin|].
  exact (proj1 (proj2 (proj2 (X12_cancelMatch (run [FindMatch "A" 0]) "A"))) Hin).
Defined.

(** ** Disconnection *)

Lemma no_room_noop t g r σ :
  getRoom t σ = None →
  roomOf t σ = None ∧ updateGuess t g σ = σ ∧ submitGuess t g σ = σ ∧
  newRound t r σ = σ.
Proof.
  intros Hnone. unfold roomOf, updateGuess, submitGuess, newRound.
  by rewrite Hnone.
Qed.

(** X13: when a socket disconnects in a reachable state, it leaves the
    queue and its room id leaves the registry, while the room objects
    and all other registry entries stay; from then on [updateGuess],
    [submitGuess] and [newRound] of any socket carrying that room id
    (the opponent included) change nothing. *)
Theorem X13_disconnect (es : list Event) (s : string) :
  (objects (disconnect s (run es)) = objects (run es) ∧
   socketRoomId (disconnect s (run es)) = socketRoomId (run es) ∧
   pendingStarts (disconnect s (run es)) = pendingStarts (run es)) ∧
  (s ∉ waitingPlayers (disconnect s (run es))) ∧
  (socketRoomId (run es) !! s = None →
   rooms (disconnect s (run es)) = rooms (run es)) ∧
  (∀ rid, socketRoomId (run es) !! s = Some rid →
     rooms (disconnect s (run es)) = delete rid (rooms (run es)) ∧
     ∀ t g r, socketRoomId (run es) !! t = Some rid →
       roomOf t (disconnect s (run es)) = None ∧
       updateGuess t g (disconnect s (run es)) = disconnect s (run es) ∧
       submitGuess t g (disconnect s (run es)) = disconnect s (run es) ∧
       newRound t r (disconnect s (run es)) = disconnect s (run es)).
Proof.
  set (σ := run es).
  pose proof (NoDup_short _ (waiting_le1 es)) as Hnd. fold σ in Hnd.
  destruct (registry_wf_run es) as (_ & Hsock & _). fold σ in Hsock.
  split_and!.
  - unfold disconnect. by destruct (socketRoomId σ !! s); [case_bool_decide|].
  - unfold disconnect. by destruct (socketRoomId σ !! s); [case_bool_decide|].
  - unfold disconnect. by destruct (socketRoomId σ !! s); [case_bool_decide|].
  - unfold disconnect.
    destruct (socketRoomId σ !! s); [case_bool_decide|]; cbn;
      by apply removeWaiting_NoDup.
  - intros Hnone. unfold disconnect. by rewrite Hnone.
  - intros rid Hrid.
    assert (Hne : rid ≠ "").
    { destruct (Hsock s rid Hrid) as (a & b & -> & _). apply makeRoomId_nonempty. }
    assert (Hrooms : rooms (disconnect s σ) = delete rid (rooms σ)).
    { unfold disconnect. rewrite Hrid. by rewrite bool_decide_eq_true_2. }
    split; [done|]. intros t g r Ht. apply no_room_noop.
    unfold getRoom.
    replace (socketRoomId (disconnect s σ)) with (socketRoomId σ).
    + rewrite Ht, Hrooms. cbn. apply lookup_delete_eq.
    + unfold disconnect. by rewrite Hrid, bool_decide_eq_true_2.
Qed.

(** ** Matchmaking *)

Lemma findMatch_pair_roomOf s opp rest r t σ :
  waitingPlayers σ = opp :: rest → t = s ∨ t = opp →
  roomOf t (findMatch s r σ)
  = Some (Room.constructor (makeRoomId s opp) s opp r).
Proof.
  intros Hw Ht. unfold roomOf, getRoom, findMatch. rewrite Hw. cbn.
  assert (Hrid : <[opp:=makeRoomId s opp]>
                   (<[s:=makeRoomId s opp]> (socketRoomId σ)) !! t
                 = Some (makeRoomId s opp)).
  { rewrite lookup_insert. case_decide; [done|].
    destruct Ht as [->| ->]; [apply lookup_insert_eq|done]. }
  rewrite Hrid. cbn. rewrite lookup_insert_eq. cbn.
  by apply list_lookup_middle.
Qed.

Lemma findMatch_timer_roomOf s opp rest r r' t σ :
  waitingPlayers σ = opp :: rest → pendingStarts σ = [] → t = s ∨ t = opp →
  roomOf t (roundStartTimer r' (findMatch s r σ))
  = Some (Room.startNewRound r' (Room.constructor (makeRoomId s opp) s opp r)).
Proof.
  intros Hw Hp Ht. unfold roomOf, getRoom, roundStartTimer, findMatch.
  rewrite Hw. cbn. rewrite Hp. cbn.
  assert (Hrid : <[opp:=makeRoomId s opp]>
                   (<[s:=makeRoomId s opp]> (socketRoomId σ)) !! t
                 = Some (makeRoomId s opp)).
  { rewrite lookup_insert. case_decide; [done|].
    destruct Ht as [->| ->]; [apply lookup_insert_eq|done]. }
  rewrite Hrid. cbn. rewrite lookup_insert_eq. cbn.
  rewrite list_lookup_alter_eq. by rewrite list_lookup_middle.
Qed.

(** X14: from a state with an empty queue, the first caller of
    [findMatch] waits and no room is made; the second caller is put
    with the first into one new room, not yet started, that both
    sockets then act on, and the queue is empty again; a third caller
    waits alone.  When the round-start timer of the new room fires
    (no older one pending), both sockets see the started room. *)
Theorem X14_pairing (σ : ServerState) (a b c : string) (r1 r2 r3 r4 : nat) :
  waitingPlayers σ = [] →
  (waitingPlayers (findMatch a r1 σ) = [a] ∧
   objects (findMatch a r1 σ) = objects σ ∧
   rooms (findMatch a r1 σ) = rooms σ) ∧
  (waitingPlayers (findMatch b r2 (findMatch a r1 σ)) = [] ∧
   roomOf a (findMatch b r2 (findMatch a r1 σ))
   = Some (Room.constructor (makeRoomId b a) b a r2) ∧
   roomOf b (findMatch b r2 (findMatch a r1 σ))
   = Some (Room.constructor (makeRoomId b a) b a r2)) ∧
  (waitingPlayers (findMatch c r3 (findMatch b r2 (findMatch a r1 σ))) = [c] ∧
   objects (findMatch c r3 (findMatch b r2 (findMatch a r1 σ)))
   = objects (findMatch b r2 (findMatch a r1 σ))) ∧
  (pendingStarts σ = [] →
   roomOf a (roundStartTimer r4 (findMatch b r2 (findMatch a r1 σ)))
   = Some (Room.startNewRound r4 (Room.constructor (makeRoomId b a) b a r2)) ∧
   roomOf b (roundStartTimer r4 (findMatch b r2 (findMatch a r1 σ)))
   = Some (Room.startNewRound r4 (Room.constructor (makeRoomId b a) b a r2))).
Proof.
  intros Hw.
  assert (Hw1 : waitingPlayers (findMatch a r1 σ) = [a] ∧
                objects (findMatch a r1 σ) = objects σ ∧
                rooms (findMatch a r1 σ) = rooms σ ∧
                pendingStarts (findMatch a r1 σ) = pendingStarts σ).
  { unfold findMatch. by rewrite Hw. }
  destruct Hw1 as (Hw1 & Ho1 & Hr1 & Hp1).
  assert (Hw2 : waitingPlayers (findMatch b r2 (findMatch a r1 σ)) = []).
  { unfold findMatch at 1. by rewrite Hw1. }
  split_and!; try done.
  - by apply (findMatch_pair_roomOf b a []); [|right].
  - by apply (findMatch_pair_roomOf b a []); [|left].
  - unfold findMatch at 1. by rewrite Hw2.
  - unfold findMatch at 1. by rewrite Hw2.
  - intros Hp. rewrite <- Hp1 in Hp.
    split; [by apply (findMatch_timer_roomOf b a []); [| |right]
           |by apply (findMatch_timer_roomOf b a []); [| |left]].
Qed.

Lemma X14_pairing_witness :
  waitingPlayers init = [] ∧
  waitingPlayers (findMatch "B" 1 (findMatch "A" 0 init)) = [] ∧
  roomOf "A" (findMatch "B" 1 (findMatch "A" 0 init))
  = Some (Room.constructor (makeRoomId "B" "A") "B" "A" 1) ∧
  roomOf "B" (findMatch "B" 1 (findMatch "A" 0 init))
  = Some (Room.constructor (makeRoomId "B" "A") "B" "A" 1).
Proof.
  split; [reflexivity|].
  exact (proj1 (proj2 (X14_pairing init "A" "B" "C" 0 1 2 3 eq_refl))).
Defined.

(** ** Accepted submissions *)

Lemma roomOf_Some s σ room :
  roomOf s σ = Some room →
  ∃ addr, getRoom s σ = Some addr ∧ objects σ !! addr = Some room.
Proof.
  unfold roomOf. destruct (getRoom s σ) as [addr|]; [|done]. cbn. eauto.
Qed.

Lemma submitGuess_accepted s guess σ addr room :
  getRoom s σ = Some addr → objects σ !! addr = Some room →
  guess ≠ [] → length guess = length (targetWord room) →
  submitGuess s guess σ
  = setObjects (<[addr := Room.submitPlayerGuess s guess
                            (checkGuess guess (targetWord room)) room]>
                  (objects σ)) σ.
Proof.
  intros Hget Hroom Hne Hlen. unfold submitGuess. rewrite Hget. cbn.
  rewrite Hroom. cbn. rewrite bool_decide_eq_true_2 by done.
  by destruct guess.
Qed.

(** X15: a non-empty guess of the target's length by a player of the
    room is recorded with the marks [checkGuess] gives it, and the
    player's [currentGuess] is cleared.  If the guess equals the target
    after canonicalization the player has won, is finished and has one
    more point; otherwise [won] and [score] stay and the player is
    finished from the sixth record on. *)
Theorem X15_submitGuess_accepted (σ : ServerState) (s : string)
    (guess : jsstring) (room : GameRoom) (p : PlayerState) :
  roomOf s σ = Some room →
  obj_get s (players room) = Some p →
  guess ≠ [] →
  length guess = length (targetWord room) →
  ∃ p', playerOf s (submitGuess s guess σ) = Some p' ∧
    id p' = id p ∧ currentGuess p' = [] ∧
    guesses p' = guesses p ++ [mkGuess guess (checkGuess guess (targetWord room))] ∧
    (normalizeHebrew guess = normalizeHebrew (targetWord room) →
     won p' = true ∧ finished p' = true ∧ score p' = (score p + 1)%N) ∧
    (normalizeHebrew guess ≠ normalizeHebrew (targetWord room) →
     won p' = won p ∧ score p' = score p ∧
     finished p' = finished p || (6 <=? S (length (guesses p)))%nat).
Proof.
  intros (addr & Hget & Hroom)%roomOf_Some Hp Hne Hlen.
  rewrite (submitGuess_accepted s guess σ addr room) by done.
  exists (Room.recordGuess guess (checkGuess guess (targetWord room)) p).
  split.
  { unfold playerOf, roomOf.
    replace (getRoom s (setObjects _ σ)) with (Some addr) by done. cbn.
    rewrite list_lookup_insert_eq by (by eapply lookup_lt_Some). cbn.
    by rewrite obj_get_alter_eq, Hp. }
  pose proof (proj2 (all_correct_facts guess (targetWord room)) Hlen) as Hwin.
  unfold Room.recordGuess.
  destruct (Room.every_correct _) eqn:Hall.
  - cbn. split_and!; try done. intros Hd. destruct Hd. by apply Hwin.
  - assert (Hd : normalizeHebrew guess ≠ normalizeHebrew (targetWord room)).
    { intros Heq. by apply Hwin in Heq. }
    rewrite length_app. cbn [length]. rewrite Nat.add_1_r.
    destruct (6 <=? _)%nat; cbn; split_and!; try done.
    + by rewrite orb_true_r.
    + by rewrite orb_false_r.
Qed.

Lemma X15_submitGuess_accepted_witness :
  roomOf "A" (run started) = Some (Room.startNewRound 0
                                      (Room.constructor "room_B_A" "B" "A" 0)) ∧
  ∃ p', playerOf "A" (submitGuess "A" word0 (run started)) = Some p' ∧
    id p' = "A" ∧ currentGuess p' = [] ∧
    guesses p' = [mkGuess word0 (checkGuess word0 word0)].
Proof.
  assert (Hroom : roomOf "A" (run started)
    = Some (Room.startNewRound 0 (Room.constructor "room_B_A" "B" "A" 0)))
    by (vm_compute; reflexivity).
  split; [exact Hroom|].
  destruct (X15_submitGuess_accepted (run started) "A" word0 _
              (Room.resetPlayer (Room.freshPlayer "A")) Hroom eq_refl
              ltac:(discriminate) eq_refl) as (p' & Hp & Hid & Hc & Hg & _).
  exists p'. split_and!; assumption.
Defined.

(** ** Rounds *)

Lemma recordGuess_miss g res q :
  Room.every_correct res = false →
  won (Room.recordGuess g res q) = won q ∧
  score (Room.recordGuess g res q) = score q ∧
  id (Room.recordGuess g res q) = id q ∧
  length (guesses (Room.recordGuess g res q)) = S (length (guesses q)) ∧
  finished (Room.recordGuess g res q)
  = finished q || (6 <=? S (length (guesses q)))%nat.
Proof.
  intros Hres. rewrite recordGuess_length. unfold Room.recordGuess.
  rewrite Hres, length_app. cbn [length]. rewrite Nat.add_1_r.
  destruct (6 <=? _)%nat; cbn; split_and!; try done.
  - by rewrite orb_true_r.
  - by rewrite orb_false_r.
Qed.

(** X16: starting from a reset player, any number of guesses that are
    not all [correct] leave [won] false and the score as it was, and
    the player is finished exactly from the sixth such guess on. *)
Theorem X16_round_exhaustion (p : PlayerState) (gs : list (jsstring * marks)) :
  Forall (λ gr, Room.every_correct gr.2 = false) gs →
  let p' := foldl (λ q gr, Room.recordGuess gr.1 gr.2 q) (Room.resetPlayer p) gs in
  won p' = false ∧ score p' = score p ∧ id p' = id p ∧
  length (guesses p') = length gs ∧
  finished p' = bool_decide (6 ≤ length gs).
Proof.
  induction gs as [|[g res] gs IH] using rev_ind; intros Hall p'.
  - by split_and!.
  - apply Forall_app in Hall as [Hgs [Hres _]%Forall_cons]. cbn in Hres.
    destruct (IH Hgs) as (Hw & Hs & Hi & Hl & Hf). subst p'.
    rewrite foldl_app. cbn [foldl fst snd].
    destruct (recordGuess_miss g res
                (foldl (λ q gr, Room.recordGuess gr.1 gr.2 q)
                   (Room.resetPlayer p) gs) Hres)
      as (Hw' & Hs' & Hi' & Hl' & Hf').
    rewrite Hw', Hs', Hi', Hl', Hf', Hf, Hl, length_app. cbn [length].
    split_and!; try done; try lia.
    destruct (6 <=? S (length gs))%nat eqn:Hsix.
    + apply Nat.leb_le in Hsix. rewrite orb_true_r.
      symmetry. apply bool_decide_eq_true_2. lia.
    + apply Nat.leb_gt in Hsix.
      rewrite !bool_decide_eq_false_2 by lia. done.
Qed.

Lemma X16_round_exhaustion_witness :
  Forall (λ gr : jsstring * marks, Room.every_correct gr.2 = false)
    (replicate 6 (word1, checkGuess word1 word0)) ∧
  finished (foldl (λ q gr, Room.recordGuess gr.1 gr.2 q)
              (Room.resetPlayer (Room.freshPlayer "A"))
              (replicate 6 (word1, checkGuess word1 word0)))
  = bool_decide (6 ≤ length (replicate 6 (word1, checkGuess word1 word0))).
Proof.
  assert (H : Forall (λ gr : jsstring * marks, Room.every_correct gr.2 = false)
                (replicate 6 (word1, checkGuess word1 word0))).
  { apply Forall_replicate. reflexivity. }
  split; [exact H|].
  exact (proj2 (proj2 (proj2 (proj2
           (X16_round_exhaustion (Room.freshPlayer "A") _ H))))).
Defined.

Lemma find_won_reset (o : list (string * PlayerState)) :
  List.find won (obj_values (prod_map (λ k : string, k) Room.resetPlayer <$> o))
  = None.
Proof. induction o as [|[k p] o IH]; [done|]. cbn. apply IH. Qed.

(** X17: starting a new round in a room object of a reachable state
    gives a started room whose round is not over and has no winner,
    with a target word from [WORD_LIST]; every player keeps id and
    score and has everything else cleared. *)
Theorem X17_startNewRound (es : list Event) (room : GameRoom) (r : nat) :
  room ∈ objects (run es) →
  gameStarted (Room.startNewRound r room) = true ∧
  Room.isGameOver (Room.startNewRound r room) = false ∧
  Room.getWinner (Room.startNewRound r room) = None ∧
  targetWord (Room.startNewRound r room) ∈ WORD_LIST ∧
  (players (Room.startNewRound r room)).*1 = (players room).*1 ∧
  ∀ k p, obj_get k (players room) = Some p →
    obj_get k (players (Room.startNewRound r room))
    = Some (mkPlayer (id p) [] [] false false (score p)).
Proof.
  intros Hroom. pose proof (reachable_room_wf es room Hroom) as (_ & Hlen & _ & _).
  split_and!.
  - done.
  - unfold Room.isGameOver, Room.startNewRound. cbn [players].
    destruct (players room) as [|[k p] o]; [cbn in Hlen; lia|done].
  - unfold Room.getWinner, Room.startNewRound. cbn [players].
    by rewrite find_won_reset.
  - apply getRandomWord_in.
  - apply room_evolves_startNewRound.
  - intros k p Hk. cbn [Room.startNewRound players].
    by rewrite obj_get_reset, Hk.
Qed.

(** ** Room ids *)

Lemma append_assoc (s1 s2 s3 : string) : (s1 +:+ s2) +:+ s3 = s1 +:+ s2 +:+ s3.
Proof.
  induction s1 as [|c s1 IH]; [done|].
  change (String c ((s1 +:+ s2) +:+ s3) = String c (s1 +:+ s2 +:+ s3)).
  by rewrite IH.
Qed.

Lemma split_at_underscore (a a' b b' : string) :
  "_"%char ∉ list_ascii_of_string a →
  "_"%char ∉ list_ascii_of_string a' →
  a +:+ "_" +:+ b = a' +:+ "_" +:+ b' → a = a' ∧ b = b'.
Proof.
  revert a'. induction a as [|c a IH]; intros [|c' a'] Ha Ha' Heq;
    cbn in Heq; simplify_eq.
  - done.
  - destruct Ha'. cbn. left.
  - destruct Ha. cbn. left.
  - cbn in Ha, Ha'.
    apply not_elem_of_cons in Ha as [_ Ha].
    apply not_elem_of_cons in Ha' as [_ Ha'].
    by destruct (IH a') as [-> ->].
Qed.

(** X18: the room id of a pair is not always its own: ids that contain
    an underscore can make the ids of two different pairs coincide.
    When the first id of each pair has no underscore, equal room ids
    mean equal pairs. *)
Theorem X18_makeRoomId (a b c a' b' : string) :
  makeRoomId (a +:+ "_" +:+ b) c = makeRoomId a (b +:+ "_" +:+ c) ∧
  ("_"%char ∉ list_ascii_of_string a →
   "_"%char ∉ list_ascii_of_string a' →
   makeRoomId a b = makeRoomId a' b' → a = a' ∧ b = b').
Proof.
  split.
  - unfold makeRoomId. f_equal. by rewrite !append_assoc.
  - intros Ha Ha'. unfold makeRoomId. cbn. intros [= Heq].
    by apply split_at_underscore.
Qed.

Lemma X18_makeRoomId_witness :
  ("_"%char ∉ list_ascii_of_string "A") ∧
  (makeRoomId "A" "B" = makeRoomId "A" "B" → "A" = "A" ∧ "B" = "B").
Proof.
  assert (H : "_"%char ∉ list_ascii_of_string "A").
  { cbn. intros [=]%list_elem_of_singleton. }
  split; [exact H|].
  exact (proj2 (X18_makeRoomId "A" "B" "" "A" "B") H H).
Defined.

(** ** What a submission leaves alone *)

(** X19: [submitGuess] changes nothing outside the room object of the
    socket; in that room it keeps the room id, the target word, the
    started flag and the set of players, and leaves every other
    player's state untouched. *)
Theorem X19_submitGuess_frame (σ : ServerState) (s : string) (guess : jsstring) :
  (rooms (submitGuess s guess σ) = rooms σ ∧
   waitingPlayers (submitGuess s guess σ) = waitingPlayers σ ∧
   socketRoomId (submitGuess s guess σ) = socketRoomId σ ∧
   pendingStarts (submitGuess s guess σ) = pendingStarts σ) ∧
  (∀ addr, getRoom s σ ≠ Some addr →
     objects (submitGuess s guess σ) !! addr = objects σ !! addr) ∧
  (∀ room, roomOf s σ = Some room →
     ∃ room', roomOf s (submitGuess s guess σ) = Some room' ∧
       roomId room' = roomId room ∧ targetWord room' = targetWord room ∧
       gameStarted room' = gameStarted room ∧
       (players room').*1 = (players room).*1 ∧
       ∀ other, other ≠ s →
         obj_get other (players room') = obj_get other (players room)).
Proof.
  split_and!.
  - unfold submitGuess. destruct (_ ≫= _) as [[a r]|]; [|done]. by destruct (_ && _).
  - apply submitGuess_waiting.
  - unfold submitGuess. destruct (_ ≫= _) as [[a r]|]; [|done]. by destruct (_ && _).
  - unfold submitGuess. destruct (_ ≫= _) as [[a r]|]; [|done]. by destruct (_ && _).
  - intros addr Hne. unfold submitGuess.
    destruct (getRoom s σ) as [a|]; [|done]. cbn.
    destruct (objects σ !! a) as [r|]; [|done]. cbn.
    destruct (_ && _); [|done]. cbn.
    apply list_lookup_insert_ne. congruence.
  - intros room Hroom.
    destruct (roomOf_Some _ _ _ Hroom) as (addr & Hget & Hobj).
    unfold submitGuess. rewrite Hget. cbn. rewrite Hobj. cbn.
    destruct (_ && _).
    + eexists. split.
      * unfold roomOf.
        replace (getRoom s (setObjects _ σ)) with (Some addr) by done. cbn.
        apply list_lookup_insert_eq. by eapply lookup_lt_Some.
      * cbn. split_and!; try done; [apply obj_alter_keys|].
        intros other Hne. by apply obj_get_alter_ne.
    + exists room. by split_and!.
Qed.

Lemma X19_submitGuess_frame_witness :
  roomOf "A" (run started)
  = Some (Room.startNewRound 0 (Room.constructor "room_B_A" "B" "A" 0)) ∧
  ∃ room', roomOf "A" (submitGuess "A" word1 (run started)) = Some room' ∧
    roomId room' = "room_B_A" ∧
    obj_get "B" (players room') = Some (Room.resetPlayer (Room.freshPlayer "B")).
Proof.
  assert (Hroom : roomOf "A" (run started)
    = Some (Room.startNewRound 0 (Room.constructor "room_B_A" "B" "A" 0)))
    by (vm_compute; reflexivity).
  split; [exact Hroom|].
  destruct (proj2 (proj2 (X19_submitGuess_frame (run started) "A" word1)) _ Hroom)
    as (room' & Hr & Hid & _ & _ & _ & Hother).
  exists room'. split_and!; [exact Hr|exact Hid|].
  rewrite (Hother "B") by discriminate. reflexivity.
Defined.

(** X20: [newRound] needs no finished round and no particular caller:
    for any socket that has a room it restarts that room's round on the
    spot, clearing the guesses and flags of every player of the room
    (the opponent's too) while keeping ids and scores; it changes
    nothing else in the state, and nothing at all for a socket without
    a room. *)
Theorem X20_newRound (σ : ServerState) (s : string) (r : nat) :
  (rooms (newRound s r σ) = rooms σ ∧
   waitingPlayers (newRound s r σ) = waitingPlayers σ ∧
   socketRoomId (newRound s r σ) = socketRoomId σ ∧
   pendingStarts (newRound s r σ) = pendingStarts σ) ∧
  (getRoom s σ = None → newRound s r σ = σ) ∧
  (∀ addr, getRoom s σ ≠ Some addr →
     objects (newRound s r σ) !! addr = objects σ !! addr) ∧
  roomOf s (newRound s r σ) = Room.startNewRound r <$> roomOf s σ ∧
  (∀ room k p, roomOf s σ = Some room → obj_get k (players room) = Some p →
     ∃ room', roomOf s (newRound s r σ) = Some room' ∧
       gameStarted room' = true ∧
       obj_get k (players room')
       = Some (mkPlayer (id p) [] [] false false (score p))).
Proof.
  assert (Hroom : roomOf s (newRound s r σ) = Room.startNewRound r <$> roomOf s σ).
  { unfold newRound, roomOf.
    destruct (getRoom s σ) as [addr|] eqn:Hg; [|by rewrite Hg].
    replace (getRoom s (setObjects _ σ)) with (Some addr) by done.
    cbn. apply list_lookup_alter_eq. }
  split_and!.
  - unfold newRound. by destruct (getRoom s σ).
  - unfold newRound. by destruct (getRoom s σ).
  - unfold newRound. by destruct (getRoom s σ).
  - unfold newRound. by destruct (getRoom s σ).
  - intros Hnone. unfold newRound. by rewrite Hnone.
  - intros addr Hne. unfold newRound.
    destruct (getRoom s σ) as [a|]; [|done]. cbn.
    apply list_lookup_alter_ne. congruence.
  - done.
  - intros room k p Hr Hk. exists (Room.startNewRound r room).
    rewrite Hroom, Hr. split; [done|]. split; [done|].
    cbn [Room.startNewRound players]. by rewrite obj_get_reset, Hk.
Qed.

Lemma X20_newRound_witness :
  roomOf "B" (run (started ++ [SubmitGuess "A" word1]))
  = Some (Room.submitPlayerGuess "A" word1 (checkGuess word1 word0)
            (Room.startNewRound 0 (Room.constructor "room_B_A" "B" "A" 0))) ∧
  ∃ room', roomOf "B" (newRound "B" 1 (run (started ++ [SubmitGuess "A" word1])))
           = Some room' ∧
    gameStarted room' = true ∧
    obj_get "A" (players room') = Some (mkPlayer "A" [] [] false false 0).
Proof.
  assert (Hroom : roomOf "B" (run (started ++ [SubmitGuess "A" word1]))
    = Some (Room.submitPlayerGuess "A" word1 (checkGuess word1 word0)
              (Room.startNewRound 0 (Room.constructor "room_B_A" "B" "A" 0))))
    by (vm_compute; reflexivity).
  split; [exact Hroom|].
  exact (proj2 (proj2 (proj2 (proj2
           (X20_newRound (run (started ++ [SubmitGuess "A" word1])) "B" 1))))
         _ "A" _ Hroom eq_refl).
Defined.

(** ** Concrete runs for the further properties *)

Lemma paired_room :
  Room.constructor "room_B_A" "B" "A" 0 ∈ objects (run paired).
Proof. apply (list_elem_of_lookup_2 _ 0). vm_compute. reflexivity. Defined.

Lemma X7_players_shape_witness :
  Room.constructor "room_B_A" "B" "A" 0 ∈ objects (run paired) ∧
  NoDup (players (Room.constructor "room_B_A" "B" "A" 0)).*1 ∧
  1 ≤ length (players (Room.constructor "room_B_A" "B" "A" 0)) ≤ 2.
Proof.
  split; [exact paired_room|].
  pose proof (X7_players_shape paired _ paired_room) as (Hnd & Hlen & _).
  exact (conj Hnd Hlen).
Defined.

Lemma X8_won_finished_witness :
  Room.constructor "room_B_A" "B" "A" 0 ∈ objects (run paired) ∧
  ∀ p, p ∈ obj_values (players (Room.constructor "room_B_A" "B" "A" 0)) →
       won p = true → finished p = true.
Proof.
  split; [exact paired_room|].
  exact (proj1 (X8_won_finished paired _ paired_room)).
Defined.

Lemma X9_targetWord_in_list_witness :
  Room.constructor "room_B_A" "B" "A" 0 ∈ objects (run paired) ∧
  targetWord (Room.constructor "room_B_A" "B" "A" 0) ∈ WORD_LIST.
Proof.
  split; [exact paired_room|].
  exact (X9_targetWord_in_list paired _ paired_room).
Defined.

Lemma X10_rooms_persist_witness :
  objects (run paired) !! 0 = Some (Room.constructor "room_B_A" "B" "A" 0) ∧
  ∃ room', objects (foldl step (run paired)
                      [RoundStartTimer 3; SubmitGuess "A" word1]) !! 0
           = Some room' ∧
    roomId room' = "room_B_A" ∧ (players room').*1 = ["B"; "A"].
Proof.
  assert (H : objects (run paired) !! 0
              = Some (Room.constructor "room_B_A" "B" "A" 0))
    by (vm_compute; reflexivity).
  split; [exact H|].
  destruct (X10_rooms_persist (run paired)
              [RoundStartTimer 3; SubmitGuess "A" word1] 0 _ H)
    as (room' & Hr & Hid & Hkeys & _).
  exists room'. split_and!; assumption.
Defined.

Lemma X11_registry_witness :
  rooms (run paired) !! "room_B_A" = Some 0 ∧
  ∃ room, objects (run paired) !! 0 = Some room ∧ roomId room = "room_B_A".
Proof.
  assert (H : rooms (run paired) !! "room_B_A" = Some 0)
    by (vm_compute; reflexivity).
  split; [exact H|].
  exact (proj1 (X11_registry paired) _ _ H).
Defined.

Lemma X13_disconnect_witness :
  socketRoomId (run paired) !! "A" = Some "room_B_A" ∧
  socketRoomId (run paired) !! "B" = Some "room_B_A" ∧
  roomOf "B" (disconnect "A" (run paired)) = None ∧
  submitGuess "B" word0 (disconnect "A" (run paired)) = disconnect "A" (run paired).
Proof.
  assert (Ha : socketRoomId (run paired) !! "A" = Some "room_B_A")
    by (vm_compute; reflexivity).
  assert (Hb : socketRoomId (run paired) !! "B" = Some "room_B_A")
    by (vm_compute; reflexivity).
  split; [exact Ha|]. split; [exact Hb|].
  destruct (proj2 (proj2 (proj2 (proj2 (X13_disconnect paired "A"))) _ Ha)
              "B" word0 0 Hb) as (Hroom & _ & Hsub & _).
  exact (conj Hroom Hsub).
Defined.

Lemma X17_startNewRound_witness :
  Room.constructor "room_B_A" "B" "A" 0 ∈ objects (run paired) ∧
  Room.isGameOver (Room.startNewRound 5 (Room.constructor "room_B_A" "B" "A" 0))
  = false ∧
  Room.getWinner (Room.startNewRound 5 (Room.constructor "room_B_A" "B" "A" 0))
  = None.
Proof.
  split; [exact paired_room|].
  pose proof (X17_startNewRound paired _ 5 paired_room) as (_ & Hover & Hwin & _).
  exact (conj Hover Hwin).
Defined.
